(** * Snake: the game engine of [snake.py], embedded and verified

    The engine is the class [SnakeGame].  Its Tk side (window, canvas,
    key bindings, the [after] timer) only calls into the engine; the
    engine is modelled first and on its own, with every attribute it reads
    or writes and every method that touches them, and the window around it
    further down ([Tk]):

    - Python integers are [Z]; [//] is floor division and raises
      [ZeroDivisionError] on a zero divisor;
    - grid cells are pairs [(x, y)] of integers, the snake is a list of
      cells, head first;
    - the direction strings ["Up"], ["Down"], ["Left"], ["Right"] are the
      four constructors of [Direction];
    - methods mutate [self] and may raise: they are computations in a
      state-and-exception monad over the record [SnakeGame].  A raised
      exception does not undo the assignments made before it, exactly as
      in Python;
    - [random.choice] takes its draw as an explicit argument. *)

From Stdlib Require Import ZArith List Bool Lia PeanoNat.
From Stdlib Require String DecimalString.
Import ListNotations.
Import String.StringSyntax.
Open Scope string_scope.
Open Scope Z_scope.

(** ** Data *)

Inductive Direction : Type := Up | Down | Left | Right.

Definition Cell : Type := (Z * Z)%type.

(** [self.direction_vectors] *)
Definition direction_vectors (d : Direction) : Z * Z :=
  match d with
  | Up => (0, -1)
  | Down => (0, 1)
  | Left => (-1, 0)
  | Right => (1, 0)
  end.

(** [self.opposites] *)
Definition opposites (d : Direction) : Direction :=
  match d with
  | Up => Down
  | Down => Up
  | Left => Right
  | Right => Left
  end.

Definition Direction_eqb (a b : Direction) : bool :=
  match a, b with
  | Up, Up | Down, Down | Left, Left | Right, Right => true
  | _, _ => false
  end.

(** Tuple equality [p == q]. *)
Definition cell_eqb (p q : Cell) : bool :=
  (fst p =? fst q) && (snd p =? snd q).

(** [p in cells] *)
Definition cell_in (p : Cell) (cells : list Cell) : bool :=
  existsb (cell_eqb p) cells.

(** The attributes of a [SnakeGame] object. *)
Record SnakeGame : Type := mkGame {
  width : Z;
  height : Z;
  cell_size : Z;
  base_speed_ms : Z;
  min_speed_ms : Z;
  snake : list Cell;
  direction : Direction;
  next_direction : Direction;
  food : Cell;
  score : Z;
  game_over : bool;
  speed_ms : Z
}.

Definition set_snake (v : list Cell) (g : SnakeGame) : SnakeGame :=
  mkGame (width g) (height g) (cell_size g) (base_speed_ms g) (min_speed_ms g)
         v (direction g) (next_direction g) (food g) (score g) (game_over g)
         (speed_ms g).

Definition set_direction (v : Direction) (g : SnakeGame) : SnakeGame :=
  mkGame (width g) (height g) (cell_size g) (base_speed_ms g) (min_speed_ms g)
         (snake g) v (next_direction g) (food g) (score g) (game_over g)
         (speed_ms g).

Definition set_next_direction (v : Direction) (g : SnakeGame) : SnakeGame :=
  mkGame (width g) (height g) (cell_size g) (base_speed_ms g) (min_speed_ms g)
         (snake g) (direction g) v (food g) (score g) (game_over g)
         (speed_ms g).

Definition set_food (v : Cell) (g : SnakeGame) : SnakeGame :=
  mkGame (width g) (height g) (cell_size g) (base_speed_ms g) (min_speed_ms g)
         (snake g) (direction g) (next_direction g) v (score g) (game_over g)
         (speed_ms g).

Definition set_score (v : Z) (g : SnakeGame) : SnakeGame :=
  mkGame (width g) (height g) (cell_size g) (base_speed_ms g) (min_speed_ms g)
         (snake g) (direction g) (next_direction g) (food g) v (game_over g)
         (speed_ms g).

Definition set_game_over (v : bool) (g : SnakeGame) : SnakeGame :=
  mkGame (width g) (height g) (cell_size g) (base_speed_ms g) (min_speed_ms g)
         (snake g) (direction g) (next_direction g) (food g) (score g) v
         (speed_ms g).

Definition set_speed_ms (v : Z) (g : SnakeGame) : SnakeGame :=
  mkGame (width g) (height g) (cell_size g) (base_speed_ms g) (min_speed_ms g)
         (snake g) (direction g) (next_direction g) (food g) (score g)
         (game_over g) v.

(** ** The monad of methods: state of [self], and Python exceptions *)

Inductive exn : Type := ZeroDivisionError | IndexError.

Inductive outcome (A : Type) : Type :=
| Ret (a : A)
| Raise (e : exn).
Arguments Ret {A} a.
Arguments Raise {A} e.

Definition M (A : Type) : Type := SnakeGame -> outcome A * SnakeGame.

Definition ret {A} (a : A) : M A := fun g => (Ret a, g).

Definition raise {A} (e : exn) : M A := fun g => (Raise e, g).

Definition bind {A B} (c : M A) (k : A -> M B) : M B :=
  fun g =>
    match c g with
    | (Ret a, g') => k a g'
    | (Raise e, g') => (Raise e, g')
    end.

Definition self : M SnakeGame := fun g => (Ret g, g).

Definition assign (f : SnakeGame -> SnakeGame) : M unit :=
  fun g => (Ret tt, f g).

Notation "x <- c ;; k" := (bind c (fun x => k))
  (at level 61, c at next level, right associativity).
Notation "c ;;; k" := (bind c (fun _ => k))
  (at level 61, right associativity).

(** [a // b] *)
Definition floordiv (a b : Z) : M Z :=
  if b =? 0 then raise ZeroDivisionError else ret (a / b).

(** [range(n)] *)
Definition range (n : Z) : list Z := map Z.of_nat (seq 0 (Z.to_nat n)).

(** [random.choice(l)], the draw being [l[r mod len(l)]]; an empty [l]
    raises [IndexError]. *)
Definition choice {A} (r : nat) (l : list A) : M A :=
  match l with
  | [] => raise IndexError
  | x :: _ => ret (nth (r mod length l)%nat l x)
  end.

(** ** Methods *)

(** The list comprehension of [spawn_food]: [x] is the outer loop. *)
Definition available (cols rows : Z) (sn : list Cell) : list Cell :=
  filter (fun p => negb (cell_in p sn)) (list_prod (range cols) (range rows)).

Definition spawn_food (r : nat) : M Cell :=
  g <- self ;;
  cols <- floordiv (width g) (cell_size g) ;;
  rows <- floordiv (height g) (cell_size g) ;;
  g <- self ;;
  choice r (available cols rows (snake g)).

Definition reset_game (r : nat) : M unit :=
  g <- self ;;
  cols <- floordiv (width g) (cell_size g) ;;
  rows <- floordiv (height g) (cell_size g) ;;
  let center_x := cols / 2 in
  let center_y := rows / 2 in
  assign (set_snake [(center_x, center_y);
                     (center_x - 1, center_y);
                     (center_x - 2, center_y)]) ;;;
  assign (set_direction Right) ;;;
  assign (set_next_direction Right) ;;;
  f <- spawn_food r ;;
  assign (set_food f) ;;;
  assign (set_score 0) ;;;
  assign (set_game_over false) ;;;
  g <- self ;;
  assign (set_speed_ms (base_speed_ms g)).

Definition restart_if_game_over (r : nat) : M unit :=
  g <- self ;;
  if game_over g then reset_game r else ret tt.

Definition change_direction (new_direction : Direction) : M unit :=
  g <- self ;;
  if game_over g then ret tt
  else if Direction_eqb new_direction (opposites (direction g)) then ret tt
  else assign (set_next_direction new_direction).

Definition hits_wall (pos : Cell) : M bool :=
  let '(x, y) := pos in
  g <- self ;;
  cols <- floordiv (width g) (cell_size g) ;;
  rows <- floordiv (height g) (cell_size g) ;;
  ret ((x <? 0) || (y <? 0) || (x >=? cols) || (y >=? rows)).

Definition hits_self (pos : Cell) : M bool :=
  g <- self ;;
  ret (cell_in pos (snake g)).

(** [self.snake[0]] *)
Definition snake_head : M Cell :=
  g <- self ;;
  match snake g with
  | [] => raise IndexError
  | h :: _ => ret h
  end.

(** [self.snake.pop()] *)
Definition snake_pop : M unit :=
  g <- self ;;
  match snake g with
  | [] => raise IndexError
  | _ :: _ => assign (set_snake (removelast (snake g)))
  end.

Definition tick (r : nat) : M unit :=
  g <- self ;;
  if game_over g then ret tt
  else
    assign (set_direction (next_direction g)) ;;;
    g <- self ;;
    let '(dx, dy) := direction_vectors (direction g) in
    h <- snake_head ;;
    let '(head_x, head_y) := h in
    let new_head := (head_x + dx, head_y + dy) in
    w <- hits_wall new_head ;;
    s <- (if w then ret true else hits_self new_head) ;;
    if s then assign (set_game_over true)
    else
      g <- self ;;
      assign (set_snake (new_head :: snake g)) ;;;
      g <- self ;;
      if cell_eqb new_head (food g) then
        assign (set_score (score g + 1)) ;;;
        f <- spawn_food r ;;
        assign (set_food f) ;;;
        g <- self ;;
        assign (set_speed_ms
                  (Z.max (min_speed_ms g) (base_speed_ms g - score g * 2)))
      else snake_pop.

(** The object as [__init__] has it when it calls [reset_game]: the five
    settings assigned, 1500 x 1000 pixels, cells of 30, tick interval from
    200 ms down to 100 ms.  The placeholders for the attributes that do
    not exist yet are never read: [reset_game] assigns each of them before
    any use, and when it raises the object is dropped. *)
Definition fresh : SnakeGame :=
  mkGame 1500 1000 30 200 100 [] Right Right (0, 0) 0 false 0.

(** [SnakeGame(root)]: the constructed object, or the exception that left
    no object. *)
Definition init (r : nat) : outcome SnakeGame :=
  match reset_game r fresh with
  | (Ret _, g) => Ret g
  | (Raise e, _) => Raise e
  end.

(** What the Tk main loop delivers to the engine. *)
Inductive event : Type :=
| Timer (r : nat)
| KeyDirection (d : Direction)
| KeySpace (r : nat).

Definition handle (e : event) : M unit :=
  match e with
  | Timer r => tick r
  | KeyDirection d => change_direction d
  | KeySpace r => restart_if_game_over r
  end.

(** The object after a callback, returned or raised: Tk reports an
    exception of a callback and keeps the main loop, and the object, alive. *)
Definition after (e : event) (g : SnakeGame) : SnakeGame := snd (handle e g).

Fixpoint run (es : list event) (g : SnakeGame) : SnakeGame :=
  match es with
  | [] => g
  | e :: es' => run es' (after e g)
  end.

Inductive reachable : SnakeGame -> Prop :=
| reach_init r g : init r = Ret g -> reachable g
| reach_step e g : reachable g -> reachable (after e g).

(** ** Vocabulary of the statements, and the states they are tried on *)

(** A cell is on the board of [cols] columns and [rows] rows. *)
Definition on_board (cols rows : Z) (p : Cell) : Prop :=
  0 <= fst p < cols /\ 0 <= snd p < rows.

(** The test of [hits_wall]. *)
Definition off_board (cols rows : Z) (p : Cell) : bool :=
  (fst p <? 0) || (snd p <? 0) || (fst p >=? cols) || (snd p >=? rows).

(** The board of an object, when its cell size allows it. *)
Definition cols_of (g : SnakeGame) : Z := width g / cell_size g.
Definition rows_of (g : SnakeGame) : Z := height g / cell_size g.

(** The cell [tick] computes as [new_head]. *)
Definition step_cell (h : Cell) (d : Direction) : Cell :=
  (fst h + fst (direction_vectors d), snd h + snd (direction_vectors d)).

(** The interval assigned after eating, as a function of the new score. *)
Definition interval (g : SnakeGame) (sc : Z) : Z :=
  Z.max (min_speed_ms g) (base_speed_ms g - sc * 2).

(** The snake [reset_game] lays down on a board of the given size. *)
Definition start_snake (cols rows : Z) : list Cell :=
  [(cols / 2, rows / 2); (cols / 2 - 1, rows / 2); (cols / 2 - 2, rows / 2)].

(** The settings [__init__] assigns; no method assigns them again. *)
Definition shipped (g : SnakeGame) : Prop :=
  width g = 1500 /\ height g = 1000 /\ cell_size g = 30 /\
  base_speed_ms g = 200 /\ min_speed_ms g = 100.

(** What holds of every state the program reaches (see [reachable_inv]);
    [50] and [33] are the columns and rows of the shipped board. *)
Record inv (g : SnakeGame) : Prop := mkInv {
  inv_shipped : shipped g;
  inv_board : Forall (on_board 50 33) (snake g);
  inv_nodup : NoDup (snake g);
  inv_food :
    In (food g) (snake g) -> forall p, on_board 50 33 p -> In p (snake g);
  inv_length : Z.of_nat (length (snake g)) = 3 + score g;
  inv_pending : next_direction g <> opposites (direction g);
  inv_neck :
    game_over g = false ->
    exists n t, snake g = step_cell n (direction g) :: n :: t;
  inv_speed : speed_ms g = interval g (score g)
}.

(** A running game on the 10 x 10 board of the specification's scenarios. *)
Definition board10 (sn : list Cell) (d : Direction) (f : Cell) : SnakeGame :=
  mkGame 300 300 30 200 100 sn d d f 0 false 200.

(** A game that ended against the right wall. *)
Definition crashed : SnakeGame :=
  mkGame 1500 1000 30 200 100 [(49, 16); (48, 16); (47, 16)] Right Right
         (3, 4) 0 true 200.

(** A snake of four segments turning onto its own tail. *)
Definition chasing_tail : SnakeGame :=
  mkGame 1500 1000 30 200 100 [(5, 5); (6, 5); (6, 6); (5, 6)] Left Down
         (0, 0) 1 false 198.

(** The game as first drawn, food at the first free cell. *)
Definition opening : SnakeGame :=
  mkGame 1500 1000 30 200 100 [(25, 16); (24, 16); (23, 16)] Right Right
         (0, 0) 0 false 200.

(** The direction that leads from a cell to a neighbour. *)
Definition heading (p q : Cell) : Direction :=
  if fst p <? fst q then Right
  else if fst q <? fst p then Left
  else if snd p <? snd q then Down
  else Up.

(** A running game of the shipped settings with snake [sn], heading [d],
    food [f], and the score and interval that go with the length. *)
Definition crawl_state (sn : list Cell) (d : Direction) (f : Cell) : SnakeGame :=
  mkGame 1500 1000 30 200 100 sn d d f (Z.of_nat (length sn) - 3) false
         (Z.max 100 (200 - (Z.of_nat (length sn) - 3) * 2)).

(** The state after the snake has eaten [f] and all of [rest] but its last
    cell, which is then the food, with the key for the last move pressed. *)
Fixpoint crawl (sn : list Cell) (d : Direction) (f : Cell) (rest : list Cell)
  : SnakeGame :=
  match rest with
  | [] => set_next_direction (heading (hd f sn) f) (crawl_state sn d f)
  | f' :: rest' => crawl (f :: sn) (heading (hd f sn) f) f' rest'
  end.

(** The moves of [crawl] are legal: each food cell is the neighbour of the
    head in a direction that is not a reversal, on the board and off the
    snake, and the next food cell is free. *)
Fixpoint crawlb (sn : list Cell) (d : Direction) (f : Cell) (rest : list Cell)
  : bool :=
  match sn with
  | [] => false
  | h :: _ =>
      let d' := heading h f in
      negb (Direction_eqb d' (opposites d)) &&
      match rest with
      | [] => true
      | f' :: rest' =>
          cell_eqb (step_cell h d') f &&
          negb (off_board 50 33 f) && negb (cell_in f sn) &&
          negb (off_board 50 33 f') && negb (cell_in f' (f :: sn)) &&
          crawlb (f :: sn) d' f' rest'
      end
  end.

(** A path through all 50 x 33 cells that starts under the snake as
    [reset_game] lays it down: along row 16 to the right wall, then column
    by column through rows 17 to 32 back to the left wall, through rows 0 to
    16 of columns 0 to 22, and through rows 0 to 15 of columns 23 to 49. *)
Definition zs (a : Z) (n : nat) : list Z :=
  map (fun i => a + Z.of_nat i) (seq 0 n).

Definition sweep (lo : Z) (n : nat) (x : Z) : list Cell :=
  map (pair x) (if Z.odd x then zs lo n else rev (zs lo n)).

Definition tour : list Cell :=
  map (fun x => (x, 16)) (zs 23 27) ++
  flat_map (sweep 17 16) (rev (zs 0 50)) ++
  flat_map (sweep 0 17) (zs 0 23) ++
  flat_map (sweep 0 16) (zs 23 27).

(** One bite short of a full board: 1649 segments, the food on the only
    free cell, straight ahead. *)
Definition last_bite : SnakeGame :=
  mkGame 1500 1000 30 200 100 (rev (removelast tour)) Down Down (49, 15)
         1646 false 100.

(** The object after the tick that ate that food. *)
Definition full_board : SnakeGame :=
  mkGame 1500 1000 30 200 100 (rev tour) Down Down (49, 15) 1647 false 100.


(** ** Further vocabulary: the shape of the snake and the ways of a tick *)

(** Each segment is a neighbour of the next one. *)
Fixpoint linked (l : list Cell) : Prop :=
  match l with
  | a :: (b :: _) as t => (exists d, a = step_cell b d) /\ linked t
  | _ => True
  end.

(** The four ways a tick of a running game ends, [h] being the head:
    a collision, a plain move, a bite with food respawned, and a bite after
    which no cell is free. *)
Inductive tick_case (r : nat) (g : SnakeGame) (h : Cell)
  : outcome unit * SnakeGame -> Prop :=
| tick_collides :
    let nh := step_cell h (next_direction g) in
    ~ on_board 50 33 nh \/ In nh (snake g) ->
    tick_case r g h
      (Ret tt, set_game_over true (set_direction (next_direction g) g))
| tick_moves :
    let nh := step_cell h (next_direction g) in
    on_board 50 33 nh -> ~ In nh (snake g) -> nh <> food g ->
    tick_case r g h
      (Ret tt,
       set_snake (nh :: removelast (snake g))
         (set_direction (next_direction g) g))
| tick_eats f' :
    let nh := step_cell h (next_direction g) in
    on_board 50 33 nh -> ~ In nh (snake g) -> nh = food g ->
    on_board 50 33 f' -> ~ In f' (nh :: snake g) ->
    tick_case r g h
      (Ret tt,
       set_speed_ms (interval g (score g + 1))
         (set_food f'
            (set_score (score g + 1)
               (set_snake (nh :: snake g)
                  (set_direction (next_direction g) g)))))
| tick_fills :
    let nh := step_cell h (next_direction g) in
    on_board 50 33 nh -> ~ In nh (snake g) -> nh = food g ->
    (forall p, on_board 50 33 p -> In p (nh :: snake g)) ->
    tick_case r g h
      (Raise IndexError,
       set_score (score g + 1)
         (set_snake (nh :: snake g) (set_direction (next_direction g) g))).

(** What holds of every reachable state beside [inv]. *)
Record inv_shape (g : SnakeGame) : Prop := mkInvShape {
  shape_food : on_board 50 33 (food g);
  shape_linked : linked (snake g);
  shape_long : (3 <= length (snake g))%nat
}.

(** ** The window: canvas, timer and keys

    The rest of the class: [draw], [draw_cell], [schedule_next_tick], the
    timer and redraw statements of [reset_game] and [tick], the key
    bindings of [__init__], and the event loop [main] enters.  Of Tk it
    takes the canvas as the list of its items in creation order, [after] as
    a queue of pending jobs with fresh numbers for ids, [after_cancel] as
    the removal of a job that may be gone already, and the loop as the
    delivery of key presses and of pending jobs, one callback at a time. *)

(** Canvas items, with the options the code passes. *)
Inductive item : Type :=
| Rectangle (x1 y1 x2 y2 : Z) (fill outline : String.string)
| Text (x y : Z) (anchor : option String.string) (fill : String.string)
       (font : String.string * Z * option String.string)
       (text : String.string).

Record Window : Type := mkWindow {
  game : SnakeGame;
  job_id : option nat;
  canvas : list item;
  pending : list (nat * Z);
  next_id : nat
}.

Definition set_game (v : SnakeGame) (w : Window) : Window :=
  mkWindow v (job_id w) (canvas w) (pending w) (next_id w).

Definition set_job_id (v : option nat) (w : Window) : Window :=
  mkWindow (game w) v (canvas w) (pending w) (next_id w).

Definition set_canvas (v : list item) (w : Window) : Window :=
  mkWindow (game w) (job_id w) v (pending w) (next_id w).

Definition set_pending (v : list (nat * Z)) (w : Window) : Window :=
  mkWindow (game w) (job_id w) (canvas w) v (next_id w).

(** [str(n)] *)
Definition str (n : Z) : String.string :=
  DecimalString.NilZero.string_of_int (Z.to_int n).

(** The items [draw] puts on the canvas for a game. *)
Definition cell_item (cs : Z) (color : String.string) (p : Cell) : item :=
  Rectangle (fst p * cs) (snd p * cs) (fst p * cs + cs) (snd p * cs + cs)
            color "#1b1b1b".

Definition snake_items (cs : Z) (sn : list Cell) : list item :=
  match sn with
  | [] => []
  | h :: t => cell_item cs "#33d17a" h :: map (cell_item cs "#26a269") t
  end.

Definition render (g : SnakeGame) : list item :=
  cell_item (cell_size g) "#ff5f57" (food g) ::
  snake_items (cell_size g) (snake g) ++
  Text 10 10 (Some "nw") "#f6f5f4" ("Consolas", 14, Some "bold")
       (String.append "Score: " (str (score g))) ::
  (if game_over g then
     [Rectangle 90 140 510 260 "#1f1f1f" "#888888";
      Text (width g / 2) 180 None "#ffffff"
           ("Consolas", 22, Some "bold") "Game Over";
      Text (width g / 2) 220 None "#d0d0d0" ("Consolas", 12, None)
           "Press SPACE to restart"]
   else []).

Module Tk.

(** Methods as computations on the window. *)
Definition W (A : Type) : Type := Window -> outcome A * Window.

Definition pure {A} (a : A) : W A := fun w => (Ret a, w).

Definition bind {A B} (c : W A) (k : A -> W B) : W B :=
  fun w =>
    match c w with
    | (Ret a, w') => k a w'
    | (Raise e, w') => (Raise e, w')
    end.

Definition window : W Window := fun w => (Ret w, w).

Definition update (f : Window -> Window) : W unit :=
  fun w => (Ret tt, f w).

(** A computation on the game attributes alone. *)
Definition lift {A} (c : M A) : W A :=
  fun w =>
    match c (game w) with
    | (o, g') => (o, set_game g' w)
    end.

Notation "x <~ c ;; k" := (bind c (fun x => k))
  (at level 61, c at next level, right associativity).
Notation "c ;~ k" := (bind c (fun _ => k))
  (at level 61, right associativity).

(** [self.canvas.delete("all")] and [self.canvas.create_...] *)
Definition canvas_delete_all : W unit := update (set_canvas []).

Definition canvas_create (i : item) : W unit :=
  w <~ window ;; update (set_canvas (canvas w ++ [i])).

(** [self.root.after(ms, self.tick)] *)
Definition root_after (ms : Z) : W nat :=
  fun w =>
    (Ret (next_id w),
     mkWindow (game w) (job_id w) (canvas w)
              (pending w ++ [(next_id w, ms)]) (S (next_id w))).

(** [self.root.after_cancel(id)] *)
Definition root_after_cancel (id : nat) : W unit :=
  w <~ window ;;
  update (set_pending (filter (fun j => negb (fst j =? id)%nat) (pending w))).

Definition draw_cell (x y : Z) (color : String.string) : W unit :=
  w <~ window ;;
  let x1 := x * cell_size (game w) in
  let y1 := y * cell_size (game w) in
  let x2 := x1 + cell_size (game w) in
  let y2 := y1 + cell_size (game w) in
  canvas_create (Rectangle x1 y1 x2 y2 color "#1b1b1b").

(** The loop [for i, (x, y) in enumerate(self.snake)], from index [i]. *)
Fixpoint draw_segments (i : nat) (sn : list Cell) : W unit :=
  match sn with
  | [] => pure tt
  | (x, y) :: sn' =>
      let color := if (i =? 0)%nat then "#33d17a" else "#26a269" in
      draw_cell x y color ;~
      draw_segments (S i) sn'
  end.

Definition draw : W unit :=
  canvas_delete_all ;~
  w <~ window ;;
  let '(food_x, food_y) := food (game w) in
  draw_cell food_x food_y "#ff5f57" ;~
  w <~ window ;;
  draw_segments 0 (snake (game w)) ;~
  w <~ window ;;
  canvas_create
    (Text 10 10 (Some "nw") "#f6f5f4"
          ("Consolas", 14, Some "bold")
          (String.append "Score: " (str (score (game w))))) ;~
  w <~ window ;;
  if game_over (game w) then
    canvas_create (Rectangle 90 140 510 260 "#1f1f1f" "#888888") ;~
    w <~ window ;;
    canvas_create
      (Text (width (game w) / 2) 180 None "#ffffff"
            ("Consolas", 22, Some "bold") "Game Over") ;~
    w <~ window ;;
    canvas_create
      (Text (width (game w) / 2) 220 None "#d0d0d0"
            ("Consolas", 12, None) "Press SPACE to restart")
  else pure tt.

Definition schedule_next_tick : W unit :=
  w <~ window ;;
  id <~ root_after (speed_ms (game w)) ;;
  update (set_job_id (Some id)).

(** [reset_game] in full: the attributes of the game, then the timer and
    the first frame. *)
Definition reset_game (r : nat) : W unit :=
  lift (reset_game r) ;~
  w <~ window ;;
  (match job_id w with
   | Some id => root_after_cancel id ;~ update (set_job_id None)
   | None => pure tt
   end) ;~
  draw ;~
  schedule_next_tick.

Definition restart_if_game_over (r : nat) : W unit :=
  w <~ window ;;
  if game_over (game w) then reset_game r else pure tt.

Definition change_direction (new_direction : Direction) : W unit :=
  lift (change_direction new_direction).

(** [tick] in full. *)
Definition tick (r : nat) : W unit :=
  w <~ window ;;
  if game_over (game w) then pure tt
  else
    lift (assign (set_direction (next_direction (game w)))) ;~
    w <~ window ;;
    let '(dx, dy) := direction_vectors (direction (game w)) in
    h <~ lift snake_head ;;
    let '(head_x, head_y) := h in
    let new_head := (head_x + dx, head_y + dy) in
    hw <~ lift (hits_wall new_head) ;;
    s <~ (if hw then pure true else lift (hits_self new_head)) ;;
    if s then
      lift (assign (set_game_over true)) ;~
      draw
    else
      w <~ window ;;
      lift (assign (set_snake (new_head :: snake (game w)))) ;~
      w <~ window ;;
      (if cell_eqb new_head (food (game w)) then
         lift (assign (set_score (score (game w) + 1))) ;~
         f <~ lift (spawn_food r) ;;
         lift (assign (set_food f)) ;~
         w <~ window ;;
         lift (assign
                 (set_speed_ms
                    (Z.max (min_speed_ms (game w))
                           (base_speed_ms (game w) - score (game w) * 2))))
       else lift snake_pop) ;~
      draw ;~
      schedule_next_tick.

(** [SnakeGame(root)] on a new root window: the settings, an empty canvas,
    no job, then [reset_game]. *)
Definition init (r : nat) : outcome Window :=
  match reset_game r (mkWindow fresh None [] [] 0) with
  | (Ret _, w) => Ret w
  | (Raise e, _) => Raise e
  end.

(** The keys bound in [__init__]. *)
Inductive key : Type :=
| Key_Up | Key_Down | Key_Left | Key_Right
| Key_w | Key_s | Key_a | Key_d
| Key_space.

Definition binding (k : key) (r : nat) : W unit :=
  match k with
  | Key_Up => change_direction Up
  | Key_Down => change_direction Down
  | Key_Left => change_direction Left
  | Key_Right => change_direction Right
  | Key_w => change_direction Up
  | Key_s => change_direction Down
  | Key_a => change_direction Left
  | Key_d => change_direction Right
  | Key_space => restart_if_game_over r
  end.

(** What the event loop delivers: a key press, or a pending job whose time
    has come; [r] is the draw a food respawn in the callback would use. *)
Inductive event : Type :=
| Press (k : key) (r : nat)
| Expire (id : nat) (r : nat).

Definition is_pending (id : nat) (w : Window) : bool :=
  existsb (fun j => (fst j =? id)%nat) (pending w).

(** The window after the callback; a job leaves the queue before its
    callback runs, and a job that is not pending cannot expire. *)
Definition deliver (e : event) (w : Window) : option Window :=
  match e with
  | Press k r => Some (snd (binding k r w))
  | Expire id r =>
      if is_pending id w then
        Some (snd (tick r (set_pending
                             (filter (fun j => negb (fst j =? id)%nat)
                                     (pending w)) w)))
      else None
  end.

Fixpoint deliver_all (es : list event) (w : Window) : option Window :=
  match es with
  | [] => Some w
  | e :: es' =>
      match deliver e w with
      | Some w' => deliver_all es' w'
      | None => None
      end
  end.

(** The windows [main] can be in: [root.mainloop()] after [SnakeGame(root)]. *)
Inductive mainloop : Window -> Prop :=
| loop_start r w : init r = Ret w -> mainloop w
| loop_step e w w' : mainloop w -> deliver e w = Some w' -> mainloop w'.

End Tk.

(** The window after [draw] and [schedule_next_tick]. *)
Definition shown_and_scheduled (w : Window) : Window :=
  mkWindow (game w) (Some (next_id w)) (render (game w))
           (pending w ++ [(next_id w, speed_ms (game w))]) (S (next_id w)).

(** The queue after the [after_cancel] of [reset_game]. *)
Definition cancelled (w : Window) : list (nat * Z) :=
  match job_id w with
  | Some id => filter (fun j => negb (fst j =? id)%nat) (pending w)
  | None => pending w
  end.

(** [Tk.tick] in terms of [tick]: the window after a tick of the engine
    that raised, that found the game over, that ended the game, or that
    moved the snake. *)
Definition tick_window (r : nat) (w : Window) : outcome unit * Window :=
  match tick r (game w) with
  | (Raise e, g') => (Raise e, set_game g' w)
  | (Ret _, g') =>
      if game_over (game w) then (Ret tt, w)
      else if game_over g' then (Ret tt, set_canvas (render g') (set_game g' w))
      else (Ret tt, shown_and_scheduled (set_game g' w))
  end.

(** [Tk.reset_game] in terms of [reset_game]. *)
Definition reset_window (r : nat) (w : Window) : outcome unit * Window :=
  match reset_game r (game w) with
  | (Raise e, g') => (Raise e, set_game g' w)
  | (Ret _, g') =>
      (Ret tt,
       shown_and_scheduled
         (mkWindow g' None (canvas w) (cancelled w) (next_id w)))
  end.

(** The event of the engine that a window event carries. *)
Definition engine_event (e : Tk.event) : event :=
  match e with
  | Tk.Press Tk.Key_Up _ | Tk.Press Tk.Key_w _ => KeyDirection Up
  | Tk.Press Tk.Key_Down _ | Tk.Press Tk.Key_s _ => KeyDirection Down
  | Tk.Press Tk.Key_Left _ | Tk.Press Tk.Key_a _ => KeyDirection Left
  | Tk.Press Tk.Key_Right _ | Tk.Press Tk.Key_d _ => KeyDirection Right
  | Tk.Press Tk.Key_space r => KeySpace r
  | Tk.Expire _ r => Timer r
  end.

(** The three conditions of a window of the running program: a game that
    runs with its one tick pending, a game that is over, and a game that
    stopped on the exception of a full board. *)
Inductive phase (w : Window) : Prop :=
| phase_running id :
    game_over (game w) = false ->
    pending w = [(id, speed_ms (game w))] -> job_id w = Some id ->
    canvas w = render (game w) ->
    ~ In (food (game w)) (snake (game w)) ->
    phase w
| phase_over :
    game_over (game w) = true ->
    pending w = [] ->
    canvas w = render (game w) ->
    ~ In (food (game w)) (snake (game w)) ->
    phase w
| phase_frozen :
    game_over (game w) = false ->
    pending w = [] ->
    (forall p, on_board 50 33 p -> In p (snake (game w))) ->
    phase w.

(** The window as [main] first shows it, food at the first free cell. *)
Definition opening_window : Window :=
  mkWindow opening (Some 0%nat) (render opening) [(0%nat, 200)] 1.

(** A window whose game runs, with the frame of the game on the canvas and
    job [k] pending. *)
Definition running_window (k : nat) (g : SnakeGame) : Window :=
  mkWindow g (Some k) (render g) [(k, speed_ms g)] (S k).

(** The arrow key of a direction. *)
Definition arrow (d : Direction) : Tk.key :=
  match d with
  | Up => Tk.Key_Up
  | Down => Tk.Key_Down
  | Left => Tk.Key_Left
  | Right => Tk.Key_Right
  end.

(** The window one bite short of a full board, and the window after that
    bite: the frame is still the one before it, and no job is pending. *)
Definition last_bite_window : Window := running_window 1646 last_bite.

Definition full_board_window : Window :=
  mkWindow full_board (Some 1646%nat) (render last_bite) [] 1647.

(** An item lies on the canvas of the game's width and height. *)
Definition on_canvas (g : SnakeGame) (i : item) : Prop :=
  match i with
  | Rectangle x1 y1 x2 y2 _ _ =>
      0 <= x1 < x2 /\ x2 <= width g /\ 0 <= y1 < y2 /\ y2 <= height g
  | Text x y _ _ _ _ => 0 <= x <= width g /\ 0 <= y <= height g
  end.

(** The attributes of the game but the pending direction. *)
Definition played (g : SnakeGame)
  : list Cell * Direction * Cell * Z * bool * Z :=
  (snake g, direction g, food g, score g, game_over g, speed_ms g).

(** The head is on the edge of the board that the direction leads to. *)
Definition at_edge (h : Cell) (d : Direction) : Prop :=
  match d with
  | Up => snd h = 0
  | Down => snd h = 32
  | Left => fst h = 0
  | Right => fst h = 49
  end.


(** The game as first drawn when the food falls straight ahead of the head. *)
Definition first_bite : SnakeGame :=
  mkGame 1500 1000 30 200 100 [(25, 16); (24, 16); (23, 16)] Right Right
         (26, 16) 0 false 200.

(** A running game with the head in the top row, heading right, the up key
    pressed. *)
Definition top_row : SnakeGame :=
  mkGame 1500 1000 30 200 100 [(26, 0); (25, 0); (25, 1)] Right Up
         (3, 4) 0 false 200.


Definition crashed_window : Window :=
  mkWindow crashed (Some 24%nat) (render crashed) [] 25.

(** * Properties *)

(** Unfolding of the monad and of the setters, and one step of
    evaluation that leaves arithmetic and list functions alone. *)
Ltac unfold_M :=
  unfold bind, self, assign, ret, raise, floordiv, choice,
    set_snake, set_direction, set_next_direction, set_food, set_score,
    set_game_over, set_speed_ms.

Ltac run_M :=
  cbn -[Z.div Z.add Z.sub Z.mul Z.max Z.ltb Z.geb Z.eqb nth Nat.modulo
        length removelast available cell_in cell_eqb direction_vectors].

(** Projections of updated objects. *)
Ltac fields :=
  unfold interval;
  cbn [width height cell_size base_speed_ms min_speed_ms snake direction
       next_direction food score game_over speed_ms set_snake set_direction
       set_next_direction set_food set_score set_game_over set_speed_ms].

Example init_0 :
  init 0 = Ret (mkGame 1500 1000 30 200 100 [(25, 16); (24, 16); (23, 16)]
                       Right Right (0, 0) 0 false 200).
Proof. vm_compute. reflexivity. Qed.

(** ** Cells, ranges and the free cells of the board *)

Lemma cell_eqb_eq (p q : Cell) : cell_eqb p q = true <-> p = q.
Proof.
  destruct p as [a b], q as [c d]; unfold cell_eqb; cbn.
  rewrite andb_true_iff, !Z.eqb_eq. split.
  - intros [-> ->]; reflexivity.
  - intros E; inversion E; auto.
Qed.

Lemma cell_eqb_refl (p : Cell) : cell_eqb p p = true.
Proof. apply cell_eqb_eq; reflexivity. Qed.

Lemma cell_eqb_neq (p q : Cell) : cell_eqb p q = false <-> p <> q.
Proof.
  rewrite <- cell_eqb_eq. destruct (cell_eqb p q); split; congruence.
Qed.

Lemma cell_in_In (p : Cell) (l : list Cell) : cell_in p l = true <-> In p l.
Proof.
  unfold cell_in. rewrite existsb_exists. split.
  - intros [q [Hq E]]. apply cell_eqb_eq in E. subst; assumption.
  - intros H. exists p. split; [assumption | apply cell_eqb_refl].
Qed.

Lemma cell_in_not_In (p : Cell) (l : list Cell) :
  cell_in p l = false <-> ~ In p l.
Proof.
  rewrite <- cell_in_In. destruct (cell_in p l); split; congruence.
Qed.

Lemma In_range (x n : Z) : In x (range n) <-> 0 <= x < n.
Proof.
  unfold range. rewrite in_map_iff. split.
  - intros [k [<- Hk]]. apply in_seq in Hk. lia.
  - intros H. exists (Z.to_nat x). split; [lia |]. apply in_seq. lia.
Qed.

Lemma off_board_false (cols rows : Z) (p : Cell) :
  off_board cols rows p = false <-> on_board cols rows p.
Proof.
  unfold off_board, on_board. rewrite !orb_false_iff.
  rewrite !Z.ltb_ge, !Z.geb_leb, !Z.leb_gt. lia.
Qed.

Lemma off_board_true (cols rows : Z) (p : Cell) :
  off_board cols rows p = true <-> ~ on_board cols rows p.
Proof.
  rewrite <- off_board_false. destruct (off_board cols rows p); split; congruence.
Qed.

Lemma In_available (cols rows : Z) (sn : list Cell) (p : Cell) :
  In p (available cols rows sn) <-> on_board cols rows p /\ ~ In p sn.
Proof.
  destruct p as [x y].
  unfold available, on_board. rewrite filter_In, negb_true_iff, cell_in_not_In.
  unfold Cell. rewrite in_prod_iff, !In_range. cbn. tauto.
Qed.

(** ** Running the monad *)

Lemma nth_mod_In {A} (r : nat) (l : list A) (d : A) :
  l <> [] -> In (nth (r mod length l)%nat l d) l.
Proof.
  intros H. apply nth_In. apply Nat.mod_upper_bound.
  destruct l; [congruence | discriminate].
Qed.


(** Every element of the list is a possible draw. *)
Lemma choice_any {A} (l : list A) (x : A) (g : SnakeGame) :
  In x l -> exists r, choice r l g = (Ret x, g).
Proof.
  intros H. destruct (In_nth l x x H) as [n [Hn E]].
  exists n. destruct l as [| a l]; [destruct H |].
  unfold choice, ret. rewrite Nat.mod_small by exact Hn.
  rewrite (nth_indep _ a x Hn), E. reflexivity.
Qed.

(** [tick], method by method, on a running game with a head. *)
Lemma tick_eq (r : nat) (g : SnakeGame) (h : Cell) (t : list Cell) :
  cell_size g <> 0 -> game_over g = false -> snake g = h :: t ->
  let g1 := set_direction (next_direction g) g in
  let nh := step_cell h (next_direction g) in
  tick r g =
    if off_board (cols_of g) (rows_of g) nh || cell_in nh (snake g)
    then (Ret tt, set_game_over true g1)
    else if cell_eqb nh (food g)
    then
      let g2 := set_score (score g + 1) (set_snake (nh :: snake g) g1) in
      match available (cols_of g) (rows_of g) (nh :: snake g) with
      | [] => (Raise IndexError, g2)
      | x :: l =>
          (Ret tt,
           set_speed_ms (interval g (score g + 1))
             (set_food (nth (r mod length (x :: l))%nat (x :: l) x) g2))
      end
    else (Ret tt, set_snake (removelast (nh :: snake g)) g1).
Proof.
  intros Hc Hg Hs g1 nh. subst g1 nh.
  apply Z.eqb_neq in Hc.
  destruct g as [w hh c b m sn d nd f sc go sp]; cbn in Hc, Hg, Hs; subst go sn.
  destruct h as [hx hy].
  unfold tick, snake_head, hits_wall, hits_self, spawn_food, snake_pop,
    step_cell, cols_of, rows_of, interval, off_board.
  unfold_M. run_M.
  destruct (direction_vectors nd) as [dx dy]. run_M.
  rewrite Hc. run_M.
  destruct (_ || _ || (_ >=? _) || (_ >=? _)); run_M; [reflexivity |].
  destruct (cell_in _ _); run_M; [reflexivity |].
  destruct (cell_eqb _ _); run_M; [| reflexivity].
  rewrite Hc. run_M.
  destruct (available _ _ _); reflexivity.
Qed.

Lemma tick_over (r : nat) (g : SnakeGame) :
  game_over g = true -> tick r g = (Ret tt, g).
Proof.
  intros H. unfold tick. unfold_M. rewrite H. reflexivity.
Qed.

Lemma change_direction_eq (d : Direction) (g : SnakeGame) :
  change_direction d g =
    (Ret tt,
     if game_over g then g
     else if Direction_eqb d (opposites (direction g)) then g
     else set_next_direction d g).
Proof.
  unfold change_direction. unfold_M.
  destruct (game_over g) eqn:E; [reflexivity |].
  destruct (Direction_eqb d (opposites (direction g))); [reflexivity |].
  rewrite <- E. reflexivity.
Qed.

Lemma reset_game_eq (r : nat) (g : SnakeGame) :
  cell_size g <> 0 ->
  let sn := start_snake (cols_of g) (rows_of g) in
  reset_game r g =
    match available (cols_of g) (rows_of g) sn with
    | [] =>
        (Raise IndexError,
         set_next_direction Right (set_direction Right (set_snake sn g)))
    | x :: l =>
        (Ret tt,
         mkGame (width g) (height g) (cell_size g) (base_speed_ms g)
                (min_speed_ms g) sn Right Right
                (nth (r mod length (x :: l))%nat (x :: l) x) 0 false
                (base_speed_ms g))
    end.
Proof.
  intros Hc sn. subst sn. apply Z.eqb_neq in Hc.
  destruct g as [w hh c b m sn d nd f sc go sp]; cbn in Hc.
  unfold reset_game, spawn_food, start_snake, cols_of, rows_of.
  unfold_M. run_M. rewrite Hc. run_M. rewrite Hc. run_M.
  destruct (available _ _ _); reflexivity.
Qed.


Lemma restart_if_game_over_eq (r : nat) (g : SnakeGame) :
  restart_if_game_over r g =
    if game_over g then reset_game r g else (Ret tt, g).
Proof.
  unfold restart_if_game_over. unfold_M.
  destruct (game_over g); reflexivity.
Qed.

(** ** Lists: dropping the last element *)

Lemma removelast_cons {A} (a b : A) (l : list A) :
  removelast (a :: b :: l) = a :: removelast (b :: l).
Proof. reflexivity. Qed.

Lemma In_removelast {A} (x : A) (l : list A) :
  In x (removelast l) -> In x l.
Proof.
  induction l as [| a l IH]; [intros [] |].
  destruct l as [| b l]; [intros [] |].
  rewrite removelast_cons. intros [E | H]; [left; exact E | right; auto].
Qed.

Lemma NoDup_removelast {A} (l : list A) : NoDup l -> NoDup (removelast l).
Proof.
  induction 1 as [| a l Ha Hl IH]; [constructor |].
  destruct l as [| b l]; [constructor |].
  rewrite removelast_cons. constructor; [| exact IH].
  intros H. apply Ha. apply In_removelast. exact H.
Qed.

Lemma Forall_removelast {A} (P : A -> Prop) (l : list A) :
  Forall P l -> Forall P (removelast l).
Proof.
  rewrite !Forall_forall. intros H x Hx. apply H, In_removelast, Hx.
Qed.

Lemma length_removelast_cons {A} (a : A) (l : list A) :
  length (removelast (a :: l)) = length l.
Proof.
  revert a. induction l as [| b l IH]; intros a; [reflexivity |].
  rewrite removelast_cons. cbn [length]. rewrite IH. reflexivity.
Qed.

Lemma NoDup_list_prod {A B} (l : list A) (l' : list B) :
  NoDup l -> NoDup l' -> NoDup (list_prod l l').
Proof.
  intros Hl Hl'. induction Hl as [| a l Ha Hl IH]; [constructor |].
  cbn [list_prod]. apply NoDup_app.
  - clear -Hl'. induction Hl' as [| b l' Hb Hl' IH]; [constructor |].
    cbn [map]. constructor; [| exact IH].
    rewrite in_map_iff. intros [b' [E Hb']]. inversion E; subst. auto.
  - exact IH.
  - intros [x y]. rewrite in_map_iff, in_prod_iff.
    intros [b' [E Hb']] [Hx _]. inversion E; subst. auto.
Qed.

Lemma NoDup_range (n : Z) : NoDup (range n).
Proof.
  unfold range. generalize (seq_NoDup (Z.to_nat n) 0).
  generalize (seq 0 (Z.to_nat n)). intros l Hl.
  induction Hl as [| a l Ha Hl IH]; [constructor |].
  cbn [map]. constructor; [| exact IH].
  rewrite in_map_iff. intros [b [E Hb]].
  apply Nat2Z.inj in E. subst. auto.
Qed.

Lemma length_range (n : Z) : 0 <= n -> Z.of_nat (length (range n)) = n.
Proof.
  intros H. unfold range. rewrite length_map, length_seq. lia.
Qed.

(** A snake without repetition that covers the board has one segment per
    cell of the board. *)
Lemma cover_length (cols rows : Z) (sn : list Cell) :
  0 <= cols -> 0 <= rows ->
  (forall p, on_board cols rows p -> In p sn) ->
  cols * rows <= Z.of_nat (length sn).
Proof.
  intros Hc Hr H.
  assert (L : (length (list_prod (range cols) (range rows)) <= length sn)%nat).
  { apply NoDup_incl_length.
    - apply NoDup_list_prod; apply NoDup_range.
    - intros [x y] Hp. apply H. apply in_prod_iff in Hp.
      rewrite !In_range in Hp. exact Hp. }
  rewrite length_prod in L.
  rewrite <- (length_range cols Hc), <- (length_range rows Hr). lia.
Qed.

(** When no cell is free, the snake covers the board. *)
Lemma available_nil (cols rows : Z) (sn : list Cell) :
  available cols rows sn = [] <->
  (forall p, on_board cols rows p -> In p sn).
Proof.
  split.
  - intros E p Hp. destruct (cell_in p sn) eqn:Ei.
    + apply cell_in_In. exact Ei.
    + apply cell_in_not_In in Ei.
      assert (Hin : In p (available cols rows sn)) by (apply In_available; auto).
      rewrite E in Hin. destruct Hin.
  - intros H. destruct (available cols rows sn) as [| p l] eqn:E; [reflexivity |].
    assert (Hin : In p (available cols rows sn)) by (rewrite E; left; reflexivity).
    apply In_available in Hin. destruct Hin as [Hp Hn]. destruct Hn. auto.
Qed.

(** ** The invariant of the running program *)

Lemma shipped_board (g : SnakeGame) :
  shipped g -> cell_size g <> 0 /\ cols_of g = 50 /\ rows_of g = 33.
Proof.
  intros (Hw & Hh & Hc & _ & _). unfold cols_of, rows_of.
  rewrite Hw, Hh, Hc. repeat split. discriminate.
Qed.

Lemma opposites_neq (d : Direction) : d <> opposites d.
Proof. destruct d; discriminate. Qed.

Lemma inv_reset (r : nat) (g : SnakeGame) :
  shipped g ->
  exists g', reset_game r g = (Ret tt, g') /\ inv g' /\
             snake g' = start_snake 50 33 /\ direction g' = Right /\
             score g' = 0 /\ game_over g' = false /\ speed_ms g' = 200.
Proof.
  intros Hs. destruct (shipped_board g Hs) as (Hc & Hcols & Hrows).
  rewrite (reset_game_eq r g Hc). cbv zeta. rewrite Hcols, Hrows.
  destruct (available 50 33 (start_snake 50 33)) as [| x l] eqn:Ea.
  { exfalso.
    assert (Hin : In (26, 16) (available 50 33 (start_snake 50 33))).
    { apply In_available. split; [unfold on_board; cbn; lia |].
      cbn. intros [E | [E | [E | []]]]; discriminate. }
    rewrite Ea in Hin. destruct Hin. }
  eexists. split; [reflexivity |].
  assert (Hf : In (nth (r mod length (x :: l))%nat (x :: l) x)
                  (available 50 33 (start_snake 50 33))).
  { rewrite Ea. apply nth_mod_In. discriminate. }
  apply In_available in Hf. destruct Hf as [_ Hf].
  destruct Hs as (Hw & Hh & Hcs & Hb & Hm).
  split; [| cbn; repeat split; assumption].
  constructor; cbn [width height cell_size base_speed_ms min_speed_ms snake
    direction next_direction food score game_over speed_ms].
  - repeat split; assumption.
  - unfold start_snake, on_board. repeat constructor; cbn; lia.
  - unfold start_snake. cbn. repeat constructor; cbn; intuition discriminate.
  - intros Hin. contradiction.
  - reflexivity.
  - discriminate.
  - intros _. exists (24, 16), [(23, 16)]. reflexivity.
  - unfold interval. cbn. rewrite Hb, Hm. reflexivity.
Qed.

Lemma inv_init (r : nat) (g : SnakeGame) : init r = Ret g -> inv g.
Proof.
  unfold init. intros H.
  destruct (inv_reset r fresh) as (g' & E & Hi & _).
  { repeat split. }
  rewrite E in H. injection H as <-. exact Hi.
Qed.

Lemma inv_change_direction (d : Direction) (g : SnakeGame) :
  inv g -> inv (snd (change_direction d g)).
Proof.
  intros Hi. rewrite change_direction_eq. cbn [snd].
  destruct (game_over g) eqn:Eg; [exact Hi |].
  destruct (Direction_eqb d (opposites (direction g))) eqn:Ed; [exact Hi |].
  destruct Hi. constructor; cbn; try assumption.
  intros E. subst d. destruct (direction g); discriminate.
Qed.

Lemma inv_restart (r : nat) (g : SnakeGame) :
  inv g -> inv (snd (restart_if_game_over r g)).
Proof.
  intros Hi. rewrite restart_if_game_over_eq.
  destruct (game_over g); [| exact Hi].
  destruct (inv_reset r g (inv_shipped g Hi)) as (g' & E & Hi' & _).
  rewrite E. exact Hi'.
Qed.

Lemma inv_tick (r : nat) (g : SnakeGame) : inv g -> inv (snd (tick r g)).
Proof.
  intros Hi. destruct (game_over g) eqn:Eg.
  { rewrite tick_over by exact Eg. exact Hi. }
  destruct (inv_neck g Hi Eg) as (n & t & Hsn).
  destruct (shipped_board g (inv_shipped g Hi)) as (Hc & Hcols & Hrows).
  rewrite (tick_eq r g _ _ Hc Eg Hsn). cbv zeta. rewrite Hcols, Hrows.
  set (h := step_cell n (direction g)) in *.
  set (nh := step_cell h (next_direction g)).
  destruct Hi as [Hship Hboard Hnd Hfood Hlen Hpend _ Hspeed].
  destruct (off_board 50 33 nh || cell_in nh (snake g)) eqn:Ecol.
  - cbn [snd]. constructor; fields; try assumption.
    + apply opposites_neq.
    + discriminate.
  - apply orb_false_iff in Ecol. destruct Ecol as [Ew Es].
    apply off_board_false in Ew. apply cell_in_not_In in Es.
    assert (Hboard' : Forall (on_board 50 33) (nh :: snake g))
      by (constructor; assumption).
    assert (Hnd' : NoDup (nh :: snake g)) by (constructor; assumption).
    destruct (cell_eqb nh (food g)) eqn:Ef.
    + destruct (available 50 33 (nh :: snake g)) as [| x l] eqn:Ea; cbn [snd].
      * assert (Hcover : forall p, on_board 50 33 p -> In p (nh :: snake g))
          by (apply available_nil; exact Ea).
        constructor; fields; try assumption.
        -- intros _. exact Hcover.
        -- cbn [length]. lia.
        -- apply opposites_neq.
        -- intros _. exists h, (n :: t). rewrite Hsn. reflexivity.
        -- pose proof (cover_length 50 33 _ ltac:(lia) ltac:(lia) Hcover) as L.
           cbn [length] in L.
           destruct Hship as (_ & _ & _ & Hb & Hm).
           rewrite Hspeed. unfold interval. rewrite Hb, Hm. lia.
      * assert (Hf : In (nth (r mod length (x :: l))%nat (x :: l) x)
                        (available 50 33 (nh :: snake g)))
          by (rewrite Ea; apply nth_mod_In; discriminate).
        apply In_available in Hf. destruct Hf as [_ Hf].
        constructor; fields; try assumption.
        -- intros Hin. contradiction.
        -- cbn [length]. lia.
        -- apply opposites_neq.
        -- intros _. exists h, (n :: t). rewrite Hsn. reflexivity.
        -- reflexivity.
    + cbn [snd]. apply cell_eqb_neq in Ef.
      assert (Hrl : removelast (nh :: snake g) = nh :: h :: removelast (n :: t))
        by (rewrite Hsn; reflexivity).
      constructor; fields; try assumption.
      * apply Forall_removelast. exact Hboard'.
      * apply NoDup_removelast. exact Hnd'.
      * intros Hin. exfalso. apply In_removelast in Hin.
        destruct Hin as [E | Hin]; [congruence |].
        apply Es. apply (Hfood Hin). exact Ew.
      * rewrite length_removelast_cons. exact Hlen.
      * apply opposites_neq.
      * intros _. rewrite Hrl. exists h, (removelast (n :: t)). reflexivity.
Qed.

Theorem reachable_inv (g : SnakeGame) : reachable g -> inv g.
Proof.
  induction 1 as [r g H | e g _ IH].
  - exact (inv_init r g H).
  - destruct e as [r | d | r]; unfold after, handle.
    + apply inv_tick, IH.
    + apply inv_change_direction, IH.
    + apply inv_restart, IH.
Qed.

(** ** The scenarios of the specification, on a board of 10 x 10 cells *)

Example scenario_move :
  tick 0 (board10 [(5, 5); (4, 5); (3, 5)] Right (5, 4)) =
  (Ret tt, board10 [(6, 5); (5, 5); (4, 5)] Right (5, 4)).
Proof. vm_compute. reflexivity. Qed.

Example scenario_wall :
  tick 0 (board10 [(0, 5); (1, 5); (2, 5)] Left (5, 4)) =
  (Ret tt, set_game_over true (board10 [(0, 5); (1, 5); (2, 5)] Left (5, 4))).
Proof. vm_compute. reflexivity. Qed.

Example scenario_self :
  tick 0 (board10 [(5, 5); (5, 6); (4, 6); (4, 5); (4, 4); (5, 4)] Up (0, 0)) =
  (Ret tt,
   set_game_over true
     (board10 [(5, 5); (5, 6); (4, 6); (4, 5); (4, 4); (5, 4)] Up (0, 0))).
Proof. vm_compute. reflexivity. Qed.

Example scenario_eat :
  tick 7 (board10 [(5, 5); (4, 5); (3, 5)] Right (6, 5)) =
  (Ret tt,
   mkGame 300 300 30 200 100 [(6, 5); (5, 5); (4, 5); (3, 5)] Right Right
          (0, 7) 1 false 198).
Proof. vm_compute. reflexivity. Qed.

(** ** Game over: [tick] does nothing *)

(** C9. In a state with [game_over] set, [tick] returns at once and leaves
    every attribute as it was; so does any number of ticks in a row. *)
Theorem tick_game_over_noop (g : SnakeGame) :
  game_over g = true ->
  (forall r, tick r g = (Ret tt, g)) /\
  (forall rs, run (map Timer rs) g = g).
Proof.
  intros H. split.
  - intros r. apply tick_over, H.
  - intros rs. induction rs as [| r rs IH]; [reflexivity |].
    cbn [map run]. unfold after, handle. rewrite tick_over by exact H.
    exact IH.
Qed.

Lemma tick_game_over_noop_witness :
  game_over crashed = true /\
  (forall r, tick r crashed = (Ret tt, crashed)) /\
  (forall rs, run (map Timer rs) crashed = crashed).
Proof.
  split; [reflexivity |]. apply (tick_game_over_noop crashed). reflexivity.
Defined.

(** ** Collisions *)

Lemma tick_collision (r : nat) (g : SnakeGame) (h : Cell) (t : list Cell) :
  cell_size g <> 0 -> game_over g = false -> snake g = h :: t ->
  ~ on_board (cols_of g) (rows_of g) (step_cell h (next_direction g)) \/
  In (step_cell h (next_direction g)) (snake g) ->
  tick r g = (Ret tt, set_game_over true (set_direction (next_direction g) g)).
Proof.
  intros Hc Hg Hs H. rewrite (tick_eq r g h t Hc Hg Hs). cbv zeta.
  destruct H as [H | H].
  - apply off_board_true in H. rewrite H. reflexivity.
  - apply cell_in_In in H. rewrite H, orb_true_r. reflexivity.
Qed.

(** C7. When the cell ahead of the head is off the board, [tick] ends the
    game and the snake is what it was: nothing is added, nothing removed. *)
Theorem tick_wall (r : nat) (g : SnakeGame) (h : Cell) (t : list Cell) :
  cell_size g <> 0 -> game_over g = false -> snake g = h :: t ->
  ~ on_board (cols_of g) (rows_of g) (step_cell h (next_direction g)) ->
  exists g',
    tick r g = (Ret tt, g') /\ game_over g' = true /\ snake g' = snake g /\
    food g' = food g /\ score g' = score g /\ speed_ms g' = speed_ms g.
Proof.
  intros Hc Hg Hs H. eexists. split.
  - apply (tick_collision r g h t Hc Hg Hs). left. exact H.
  - repeat split.
Qed.

Lemma tick_wall_witness :
  exists g',
    tick 0 (board10 [(0, 5); (1, 5); (2, 5)] Left (5, 4)) = (Ret tt, g') /\
    game_over g' = true /\ snake g' = [(0, 5); (1, 5); (2, 5)] /\
    food g' = (5, 4) /\ score g' = 0 /\ speed_ms g' = 200.
Proof.
  apply (tick_wall 0 (board10 [(0, 5); (1, 5); (2, 5)] Left (5, 4))
                   (0, 5) [(1, 5); (2, 5)]).
  - cbn. discriminate.
  - reflexivity.
  - reflexivity.
  - unfold on_board. cbn. lia.
Defined.

Lemma last_not_in_removelast {A} (l : list A) (d : A) :
  NoDup l -> l <> [] -> ~ In (last l d) (removelast l).
Proof.
  intros Hn Hl. rewrite (app_removelast_last d Hl) in Hn.
  apply NoDup_remove_2 in Hn. rewrite app_nil_r in Hn. exact Hn.
Qed.

(** C2. The snake is searched for the new head as it is before the move,
    tail included: a new head on any segment ends the game, in particular
    one on the tail cell that this very tick would have vacated (no food
    being there), although the body after the move would not contain it. *)
Theorem tick_self_collision_pre_move
    (r : nat) (g : SnakeGame) (h : Cell) (t : list Cell) :
  cell_size g <> 0 -> game_over g = false -> snake g = h :: t ->
  let nh := step_cell h (next_direction g) in
  let g' := set_game_over true (set_direction (next_direction g) g) in
  (In nh (snake g) -> tick r g = (Ret tt, g')) /\
  (nh = last (snake g) h -> nh <> food g ->
   tick r g = (Ret tt, g') /\ game_over (snd (tick r g)) = true /\
   snake (snd (tick r g)) = snake g /\
   (NoDup (snake g) -> ~ In nh (removelast (snake g)))).
Proof.
  intros Hc Hg Hs nh g'.
  assert (Hin : In nh (snake g) -> tick r g = (Ret tt, g')).
  { intros H. apply (tick_collision r g h t Hc Hg Hs). right. exact H. }
  split; [exact Hin |].
  intros Hl _.
  assert (Hne : snake g <> []) by (rewrite Hs; discriminate).
  assert (Ht : tick r g = (Ret tt, g')).
  { apply Hin. rewrite Hl.
    rewrite (app_removelast_last h Hne) at 2.
    apply in_or_app. right. left. reflexivity. }
  rewrite Ht. repeat split.
  intros Hn. rewrite Hl. apply last_not_in_removelast; assumption.
Qed.

Lemma tick_self_collision_pre_move_witness :
  tick 0 chasing_tail =
    (Ret tt, set_game_over true (set_direction Down chasing_tail)) /\
  game_over (snd (tick 0 chasing_tail)) = true /\
  snake (snd (tick 0 chasing_tail)) = snake chasing_tail /\
  (NoDup (snake chasing_tail) ->
   ~ In (5, 6) (removelast (snake chasing_tail))).
Proof.
  apply (tick_self_collision_pre_move 0 chasing_tail (5, 5)
           [(6, 5); (6, 6); (5, 6)]).
  - cbn. discriminate.
  - reflexivity.
  - reflexivity.
  - reflexivity.
  - cbn. discriminate.
Defined.

(** ** Direction changes *)

Lemma step_back (n : Cell) (d e : Direction) :
  step_cell (step_cell n d) e = n -> e = opposites d.
Proof.
  destruct n as [x y]. unfold step_cell.
  destruct d, e; cbn [direction_vectors fst snd opposites]; intros E;
    try reflexivity; exfalso; injection E; lia.
Qed.

Lemma reachable_opening : reachable opening.
Proof. apply (reach_init 0). vm_compute. reflexivity. Defined.

Lemma reachable_first_bite : reachable first_bite.
Proof. apply (reach_init 871). vm_compute. reflexivity. Defined.

(** C5. In a running game, asking for the opposite of the committed
    direction changes nothing, the pending direction included.  In a state
    the program reaches, the tick that follows therefore never steps back
    onto the segment behind the head, and the direction it commits is not
    the reverse of the previous one. *)
Theorem reversal_rejected (g : SnakeGame) :
  game_over g = false ->
  let g1 := snd (change_direction (opposites (direction g)) g) in
  change_direction (opposites (direction g)) g = (Ret tt, g) /\
  next_direction g1 = next_direction g /\
  (reachable g ->
   (exists h n t,
      snake g1 = h :: n :: t /\ step_cell h (next_direction g1) <> n) /\
   (forall r, direction (snd (tick r g1)) <> opposites (direction g))).
Proof.
  intros Hg g1.
  assert (E : change_direction (opposites (direction g)) g = (Ret tt, g)).
  { rewrite change_direction_eq, Hg.
    destruct (direction g); reflexivity. }
  subst g1. rewrite E. cbn [snd].
  split; [reflexivity |]. split; [reflexivity |]. intros Hr.
  pose proof (reachable_inv g Hr) as Hi.
  destruct (inv_neck g Hi Hg) as (n & t & Hsn).
  pose proof (inv_pending g Hi) as Hp.
  split.
  - exists (step_cell n (direction g)), n, t. split; [exact Hsn |].
    intros Hb. apply Hp. apply step_back with n. exact Hb.
  - intros r.
    destruct (shipped_board g (inv_shipped g Hi)) as (Hc & _).
    rewrite (tick_eq r g _ _ Hc Hg Hsn). cbv zeta.
    destruct (_ || _); [exact Hp |].
    destruct (cell_eqb _ _); [| exact Hp].
    destruct (available _ _ _); exact Hp.
Qed.

Lemma reversal_rejected_witness :
  change_direction Left opening = (Ret tt, opening) /\
  next_direction (snd (change_direction Left opening)) = Right /\
  (exists h n t,
     snake (snd (change_direction Left opening)) = h :: n :: t /\
     step_cell h (next_direction (snd (change_direction Left opening))) <> n) /\
  (forall r,
     direction (snd (tick r (snd (change_direction Left opening)))) <> Left).
Proof.
  destruct (reversal_rejected opening) as (H1 & H2 & H3).
  - reflexivity.
  - split; [exact H1 |]. split; [exact H2 |].
    apply H3. exact reachable_opening.
Defined.

(** ** Eating and moving *)

Lemma interval_antitone (g : SnakeGame) (s1 s2 : Z) :
  s1 <= s2 -> interval g s2 <= interval g s1.
Proof. unfold interval. lia. Qed.

Lemma interval_floor (g : SnakeGame) (s : Z) : min_speed_ms g <= interval g s.
Proof. unfold interval. lia. Qed.

(** C6. A tick of the running game whose new head is on the board and off
    the snake scores one point exactly when the new head is the food cell;
    the interval is then [max(min_speed_ms, base_speed_ms - score * 2)] for
    the new score, a function of the score that never increases and never
    goes below [min_speed_ms].  Otherwise score and interval are kept, the
    last segment is dropped and the length is the same. *)
Theorem tick_eat_or_move (r : nat) (g : SnakeGame) (h : Cell) (t : list Cell) :
  reachable g -> game_over g = false -> snake g = h :: t ->
  let nh := step_cell h (next_direction g) in
  let g' := snd (tick r g) in
  on_board (cols_of g) (rows_of g) nh -> ~ In nh (snake g) ->
  (score g' = score g + 1 <-> nh = food g) /\
  (nh = food g ->
   snake g' = nh :: snake g /\
   speed_ms g' = Z.max (min_speed_ms g') (base_speed_ms g' - score g' * 2)) /\
  (nh <> food g ->
   score g' = score g /\ speed_ms g' = speed_ms g /\ food g' = food g /\
   snake g' = nh :: removelast (snake g) /\
   length (snake g') = length (snake g)) /\
  (forall s1 s2, s1 <= s2 -> interval g s2 <= interval g s1) /\
  (forall s, min_speed_ms g <= interval g s).
Proof.
  intros Hr Hg Hs nh g' Hb Hn.
  pose proof (reachable_inv g Hr) as Hi.
  pose proof (inv_tick r g Hi) as Hi'. fold g' in Hi'.
  pose proof (inv_speed g' Hi') as Hsp'. unfold interval in Hsp'.
  destruct (shipped_board g (inv_shipped g Hi)) as (Hc & _).
  assert (E := tick_eq r g h t Hc Hg Hs). cbv zeta in E. fold nh in E.
  apply off_board_false in Hb. apply cell_in_not_In in Hn.
  rewrite Hb, Hn in E. cbn [orb] in E.
  assert (Hcases :
    (nh = food g /\ score g' = score g + 1 /\ snake g' = nh :: snake g) \/
    (nh <> food g /\
     g' = set_snake (removelast (nh :: snake g))
            (set_direction (next_direction g) g))).
  { subst g'. destruct (cell_eqb nh (food g)) eqn:Ef.
    - left. apply cell_eqb_eq in Ef. split; [exact Ef |].
      destruct (available _ _ _); rewrite E; split; reflexivity.
    - right. apply cell_eqb_neq in Ef. split; [exact Ef |].
      rewrite E. reflexivity. }
  split; [| split; [| split; [| split]]].
  - destruct Hcases as [(Hf & Hsc & _) | (Hf & Eg)].
    + split; auto.
    + split; [| contradiction]. rewrite Eg. fields. lia.
  - intros Hf. destruct Hcases as [(_ & _ & Hsn) | (Hf' & _)];
      [| contradiction].
    split; [exact Hsn | exact Hsp'].
  - intros Hf. destruct Hcases as [(Hf' & _) | (_ & Eg)]; [contradiction |].
    rewrite Eg. fields. repeat split.
    + rewrite Hs. reflexivity.
    + apply length_removelast_cons.
  - intros s1 s2. apply interval_antitone.
  - apply interval_floor.
Qed.

Lemma tick_eat_or_move_witness :
  (let g' := snd (tick 0 opening) in
  (score g' = score opening + 1 <-> (26, 16) = food opening) /\
  ((26, 16) = food opening ->
   snake g' = (26, 16) :: snake opening /\
   speed_ms g' = Z.max (min_speed_ms g') (base_speed_ms g' - score g' * 2)) /\
  ((26, 16) <> food opening ->
   score g' = score opening /\ speed_ms g' = speed_ms opening /\
   food g' = food opening /\
   snake g' = (26, 16) :: removelast (snake opening) /\
   length (snake g') = length (snake opening)) /\
  (forall s1 s2, s1 <= s2 -> interval opening s2 <= interval opening s1) /\
  (forall s, min_speed_ms opening <= interval opening s)) /\
  (score (snd (tick 0 first_bite)) = score first_bite + 1 /\
   snake (snd (tick 0 first_bite)) = (26, 16) :: snake first_bite /\
   speed_ms (snd (tick 0 first_bite)) =
     Z.max (min_speed_ms (snd (tick 0 first_bite)))
           (base_speed_ms (snd (tick 0 first_bite)) -
            score (snd (tick 0 first_bite)) * 2)).
Proof.
  split.
  { apply (tick_eat_or_move 0 opening (25, 16) [(24, 16); (23, 16)]).
    - exact reachable_opening.
    - reflexivity.
    - reflexivity.
    - unfold on_board. cbn. lia.
    - cbn. intros [E | [E | [E | []]]]; discriminate. }
  destruct (tick_eat_or_move 0 first_bite (25, 16) [(24, 16); (23, 16)])
    as (Hiff & Heat & _).
  - exact reachable_first_bite.
  - reflexivity.
  - reflexivity.
  - unfold on_board. cbn. lia.
  - cbn. intros [E | [E | [E | []]]]; discriminate.
  - split; [apply Hiff; reflexivity | apply Heat; reflexivity].
Defined.

(** ** Restart *)

Lemma start_snake_room (cols rows : Z) :
  3 <= cols -> 1 <= rows ->
  In (cols / 2 + 1, rows / 2) (available cols rows (start_snake cols rows)).
Proof.
  intros Hc Hr. apply In_available. split.
  - unfold on_board. cbn [fst snd].
    pose proof (Z.div_pos rows 2). pose proof (Z.div_pos cols 2).
    assert (cols / 2 + 1 < cols) by (Z.to_euclidean_division_equations; lia).
    assert (rows / 2 < rows) by (Z.to_euclidean_division_equations; lia).
    lia.
  - unfold start_snake. intros [E | [E | [E | []]]]; injection E; lia.
Qed.

(** C8. [restart_if_game_over] does nothing while the game runs.  Once the
    game is over, on a board of at least three columns and one row, it
    gives score 0, a running game, the three-segment snake laid leftwards
    from the centre cell, direction right, the base tick interval, and
    food on a free cell; the settings stay. *)
Theorem restart_if_game_over_spec (r : nat) (g : SnakeGame) :
  (game_over g = false -> restart_if_game_over r g = (Ret tt, g)) /\
  (game_over g = true ->
   cell_size g <> 0 -> 3 <= cols_of g -> 1 <= rows_of g ->
   exists g',
     restart_if_game_over r g = (Ret tt, g') /\
     score g' = 0 /\ game_over g' = false /\
     snake g' = [(cols_of g / 2, rows_of g / 2);
                 (cols_of g / 2 - 1, rows_of g / 2);
                 (cols_of g / 2 - 2, rows_of g / 2)] /\
     length (snake g') = 3%nat /\
     direction g' = Right /\ next_direction g' = Right /\
     speed_ms g' = base_speed_ms g /\
     on_board (cols_of g) (rows_of g) (food g') /\
     ~ In (food g') (snake g') /\
     (width g', height g', cell_size g', base_speed_ms g', min_speed_ms g') =
     (width g, height g, cell_size g, base_speed_ms g, min_speed_ms g)).
Proof.
  rewrite restart_if_game_over_eq. split; intros Hg; rewrite Hg.
  - reflexivity.
  - intros Hc Hcols Hrows. rewrite (reset_game_eq r g Hc). cbv zeta.
    pose proof (start_snake_room _ _ Hcols Hrows) as Hroom.
    destruct (available _ _ _) as [| x l] eqn:Ea; [destruct Hroom |].
    eexists. split; [reflexivity |].
    assert (Hf : In (nth (r mod length (x :: l))%nat (x :: l) x)
                    (available (cols_of g) (rows_of g)
                       (start_snake (cols_of g) (rows_of g)))).
    { rewrite Ea. apply nth_mod_In. discriminate. }
    apply In_available in Hf. destruct Hf as [Hon Hoff].
    fields. repeat split; try assumption; apply Hon.
Qed.

Lemma restart_if_game_over_spec_witness :
  (game_over opening = false ->
   restart_if_game_over 0 opening = (Ret tt, opening)) /\
  (exists g',
     restart_if_game_over 0 crashed = (Ret tt, g') /\
     score g' = 0 /\ game_over g' = false /\
     snake g' = [(25, 16); (24, 16); (23, 16)] /\
     length (snake g') = 3%nat /\
     direction g' = Right /\ next_direction g' = Right /\
     speed_ms g' = 200 /\
     on_board 50 33 (food g') /\
     ~ In (food g') (snake g') /\
     (width g', height g', cell_size g', base_speed_ms g', min_speed_ms g') =
     (1500, 1000, 30, 200, 100)).
Proof.
  split.
  - apply (proj1 (restart_if_game_over_spec 0 opening)).
  - apply (proj2 (restart_if_game_over_spec 0 crashed)).
    + reflexivity.
    + cbn. discriminate.
    + vm_compute. discriminate.
    + vm_compute. discriminate.
Defined.

(** ** Length and score *)

(** C10. The game starts with three segments and score 0; in every state the
    program reaches the snake has [3 + score] segments; and a tick either
    adds one segment and one point, or keeps both. *)
Theorem snake_length_score (g : SnakeGame) :
  reachable g ->
  (forall r g0, init r = Ret g0 ->
                length (snake g0) = 3%nat /\ score g0 = 0) /\
  Z.of_nat (length (snake g)) = 3 + score g /\
  (forall r,
     let g' := snd (tick r g) in
     (length (snake g') = S (length (snake g)) /\ score g' = score g + 1 /\
      exists h t, snake g = h :: t /\
                  food g = step_cell h (next_direction g)) \/
     (length (snake g') = length (snake g) /\ score g' = score g)).
Proof.
  intros Hr. pose proof (reachable_inv g Hr) as Hi. split; [| split].
  - intros r g0. unfold init.
    destruct (inv_reset r fresh) as (g1 & E & _ & H).
    { repeat split. }
    rewrite E. intros Eg. injection Eg as <-.
    destruct H as (Hsn & _ & Hsc & _). rewrite Hsn. split; [reflexivity | exact Hsc].
  - exact (inv_length g Hi).
  - intros r g'. subst g'. destruct (game_over g) eqn:Hg.
    { rewrite tick_over by exact Hg. right. split; reflexivity. }
    destruct (inv_neck g Hi Hg) as (n & t & Hsn).
    destruct (shipped_board g (inv_shipped g Hi)) as (Hc & _).
    rewrite (tick_eq r g _ _ Hc Hg Hsn). cbv zeta.
    destruct (_ || _); [right; split; reflexivity |].
    destruct (cell_eqb _ _) eqn:Ef.
    + left. apply cell_eqb_eq in Ef.
      assert (Hex : exists h t, snake g = h :: t /\
                                food g = step_cell h (next_direction g)).
      { exists (step_cell n (direction g)), (n :: t). split; [exact Hsn |].
        symmetry. exact Ef. }
      destruct (available _ _ _); fields; repeat split; exact Hex.
    + right. fields. split; [apply length_removelast_cons | reflexivity].
Qed.

Lemma snake_length_score_witness :
  (forall r g0, init r = Ret g0 ->
                length (snake g0) = 3%nat /\ score g0 = 0) /\
  Z.of_nat (length (snake opening)) = 3 + score opening /\
  (forall r,
     let g' := snd (tick r opening) in
     (length (snake g') = S (length (snake opening)) /\
      score g' = score opening + 1 /\
      exists h t, snake opening = h :: t /\
                  food opening = step_cell h (next_direction opening)) \/
     (length (snake g') = length (snake opening) /\ score g' = score opening)).
Proof.
  apply (snake_length_score opening). exact reachable_opening.
Defined.

(** ** Filling the board

    A game in which every tick eats: the food is always the cell ahead, so
    the snake never drops its tail and grows along a path through the
    board.  Along a path that visits every cell, the last bite leaves no
    free cell. *)

Lemma crawl_turn (sn : list Cell) (d d' : Direction) (f : Cell) :
  Direction_eqb d' (opposites d) = false ->
  reachable (crawl_state sn d f) ->
  reachable (set_next_direction d' (crawl_state sn d f)).
Proof.
  intros Hd Hr.
  replace (set_next_direction d' (crawl_state sn d f))
    with (after (KeyDirection d') (crawl_state sn d f)).
  - apply reach_step, Hr.
  - unfold after, handle. rewrite change_direction_eq.
    cbn [snd game_over direction crawl_state]. rewrite Hd. reflexivity.
Qed.

Lemma crawl_bite (h : Cell) (t : list Cell) (d d' : Direction) (f f' : Cell) :
  Direction_eqb d' (opposites d) = false ->
  step_cell h d' = f ->
  off_board 50 33 f = false -> cell_in f (h :: t) = false ->
  off_board 50 33 f' = false -> cell_in f' (f :: h :: t) = false ->
  reachable (crawl_state (h :: t) d f) ->
  reachable (crawl_state (f :: h :: t) d' f').
Proof.
  intros Hd Hstep Hon Hoff Hon' Hoff' Hr.
  pose proof (crawl_turn _ _ _ _ Hd Hr) as Hr1.
  set (g1 := set_next_direction d' (crawl_state (h :: t) d f)) in *.
  assert (Hin : In f' (available 50 33 (f :: h :: t))).
  { apply In_available. split.
    - apply off_board_false, Hon'.
    - apply cell_in_not_In, Hoff'. }
  destruct (choice_any _ _ g1 Hin) as [r Hch].
  assert (E := tick_eq r g1 h t). cbv zeta in E.
  change (cols_of g1) with 50 in E. change (rows_of g1) with 33 in E.
  change (next_direction g1) with d' in E.
  change (snake g1) with (h :: t) in E. change (food g1) with f in E.
  rewrite Hstep, Hon, Hoff, cell_eqb_refl in E. cbn [orb] in E.
  destruct (available 50 33 (f :: h :: t)) as [| x l]; [destruct Hin |].
  unfold choice, ret in Hch.
  assert (Hnth : nth (r mod length (x :: l))%nat (x :: l) x = f')
    by congruence.
  rewrite Hnth in E.
  replace (crawl_state (f :: h :: t) d' f') with (after (Timer r) g1).
  - apply reach_step, Hr1.
  - unfold after, handle. rewrite E by (cbn; congruence). cbn [snd].
    unfold g1, crawl_state. fields. cbn [length].
    replace (Z.of_nat (S (length t)) - 3 + 1)
      with (Z.of_nat (S (S (length t))) - 3) by lia.
    reflexivity.
Qed.

Lemma crawl_reachable (rest : list Cell) :
  forall sn d f,
    crawlb sn d f rest = true ->
    reachable (crawl_state sn d f) -> reachable (crawl sn d f rest).
Proof.
  induction rest as [| f' rest IH]; intros sn d f Hb Hr;
    destruct sn as [| h t]; try discriminate Hb;
    cbn [crawlb] in Hb; cbn [crawl hd];
    apply andb_true_iff in Hb; destruct Hb as [Hd Hb];
    apply negb_true_iff in Hd.
  - apply crawl_turn; assumption.
  - do 5 (apply andb_true_iff in Hb; destruct Hb as [Hb ?]).
    repeat match goal with
           | H : negb _ = true |- _ => apply negb_true_iff in H
           end.
    apply cell_eqb_eq in Hb.
    apply IH; [assumption |].
    apply (crawl_bite h t d); assumption.
Qed.

Example tour_start : firstn 4 tour = [(23, 16); (24, 16); (25, 16); (26, 16)].
Proof. vm_compute. reflexivity. Qed.

Example tour_length : length tour = 1650%nat.
Proof. vm_compute. reflexivity. Qed.

Lemma crawl_last_bite :
  crawl [(25, 16); (24, 16); (23, 16)] Right (26, 16) (skipn 4 tour) = last_bite.
Proof. vm_compute. reflexivity. Qed.

Lemma reachable_last_bite : reachable last_bite.
Proof.
  rewrite <- crawl_last_bite. apply crawl_reachable.
  - vm_compute. reflexivity.
  - apply (reach_init 871). vm_compute. reflexivity.
Qed.

Lemma tick_last_bite : tick 0 last_bite = (Raise IndexError, full_board).
Proof. vm_compute. reflexivity. Qed.


(** ** The board, the snake and the food *)




(** ** No free cell for the food *)




(** * Further properties of the engine *)

(** ** The ways of a tick *)

Lemma tick_cases (r : nat) (g : SnakeGame) (h : Cell) (t : list Cell) :
  shipped g -> game_over g = false -> snake g = h :: t ->
  tick_case r g h (tick r g).
Proof.
  intros Hs Hg Hsn.
  destruct (shipped_board g Hs) as (Hc & Hcols & Hrows).
  rewrite (tick_eq r g h t Hc Hg Hsn). cbv zeta. rewrite Hcols, Hrows.
  set (nh := step_cell h (next_direction g)).
  destruct (off_board 50 33 nh || cell_in nh (snake g)) eqn:Ecol.
  - apply tick_collides. fold nh. apply orb_true_iff in Ecol.
    destruct Ecol as [E | E].
    + left. apply off_board_true, E.
    + right. apply cell_in_In, E.
  - apply orb_false_iff in Ecol. destruct Ecol as [Ew Es].
    apply off_board_false in Ew. apply cell_in_not_In in Es.
    destruct (cell_eqb nh (food g)) eqn:Ef.
    + apply cell_eqb_eq in Ef.
      destruct (available 50 33 (nh :: snake g)) as [| x l] eqn:Ea.
      * apply tick_fills; try assumption. apply available_nil, Ea.
      * assert (Hf : In (nth (r mod length (x :: l))%nat (x :: l) x)
                        (available 50 33 (nh :: snake g)))
          by (rewrite Ea; apply nth_mod_In; discriminate).
        apply In_available in Hf. destruct Hf as [Hon Hoff].
        apply tick_eats; assumption.
    + apply cell_eqb_neq in Ef.
      replace (removelast (nh :: snake g)) with (nh :: removelast (snake g))
        by (rewrite Hsn; reflexivity).
      apply tick_moves; assumption.
Qed.

(** ** Shape of the snake, place of the food *)

Lemma linked_removelast (l : list Cell) : linked l -> linked (removelast l).
Proof.
  induction l as [| a l IH]; [trivial |].
  destruct l as [| b l]; [trivial |].
  intros [Hab Hl]. rewrite removelast_cons.
  destruct l as [| c l]; [exact I |].
  rewrite removelast_cons. split; [exact Hab |].
  rewrite <- removelast_cons. apply IH, Hl.
Qed.

Lemma removelast_cons_head {A} (a : A) (l : list A) :
  l <> [] -> removelast (a :: l) = a :: removelast l.
Proof. destruct l; [congruence | reflexivity]. Qed.

Lemma reset_shipped (r : nat) (g : SnakeGame) :
  shipped g ->
  exists f,
    In f (available 50 33 (start_snake 50 33)) /\
    reset_game r g =
      (Ret tt,
       mkGame (width g) (height g) (cell_size g) (base_speed_ms g)
              (min_speed_ms g) (start_snake 50 33) Right Right f 0 false
              (base_speed_ms g)).
Proof.
  intros Hs. destruct (shipped_board g Hs) as (Hc & Hcols & Hrows).
  rewrite (reset_game_eq r g Hc). cbv zeta. rewrite Hcols, Hrows.
  pose proof (start_snake_room 50 33 ltac:(lia) ltac:(lia)) as Hroom.
  destruct (available 50 33 (start_snake 50 33)) as [| x l] eqn:Ea;
    [destruct Hroom |].
  eexists. split; [| reflexivity].
  apply nth_mod_In. discriminate.
Qed.

Lemma shape_reset (r : nat) (g : SnakeGame) :
  shipped g -> inv_shape (snd (reset_game r g)).
Proof.
  intros Hs. destruct (reset_shipped r g Hs) as (f & Hf & E).
  rewrite E. apply In_available in Hf. destruct Hf as [Hon _].
  constructor; cbn [snd food snake].
  - exact Hon.
  - unfold start_snake. cbn [linked]. repeat split.
    + exists Right. unfold step_cell. cbn. f_equal; lia.
    + exists Right. unfold step_cell. cbn. f_equal; lia.
  - unfold start_snake. cbn. lia.
Qed.

Lemma shape_tick (r : nat) (g : SnakeGame) :
  inv g -> inv_shape g -> inv_shape (snd (tick r g)).
Proof.
  intros Hi Hsh. destruct (game_over g) eqn:Hg.
  { rewrite tick_over by exact Hg. exact Hsh. }
  destruct (inv_neck g Hi Hg) as (n & t & Hsn).
  pose proof (tick_cases r g _ _ (inv_shipped g Hi) Hg Hsn) as Hc.
  destruct Hsh as [Hfood Hlink Hlong].
  assert (Hlink' : linked (step_cell (step_cell n (direction g))
                             (next_direction g) :: snake g)).
  { rewrite Hsn. split; [eexists; reflexivity |]. rewrite <- Hsn. exact Hlink. }
  inversion Hc; subst; cbn [snd]; constructor; fields; try assumption.
  - rewrite <- removelast_cons_head by (rewrite Hsn; discriminate).
    apply linked_removelast. exact Hlink'.
  - rewrite <- removelast_cons_head by (rewrite Hsn; discriminate).
    rewrite length_removelast_cons. exact Hlong.
  - cbn [length]. lia.
  - cbn [length]. lia.
Qed.

Lemma reachable_shape (g : SnakeGame) : reachable g -> inv_shape g.
Proof.
  induction 1 as [r g H | e g Hr IH].
  - unfold init in H.
    pose proof (shape_reset r fresh) as Hs.
    destruct (reset_game r fresh) as [[[] | e] g'];
      [| discriminate].
    injection H as <-. apply Hs. repeat split.
  - pose proof (reachable_inv g Hr) as Hi.
    destruct e as [r | d | r]; unfold after, handle.
    + apply shape_tick; assumption.
    + rewrite change_direction_eq. cbn [snd].
      destruct (game_over g); [exact IH |].
      destruct (Direction_eqb _ _); [exact IH |].
      destruct IH. constructor; assumption.
    + rewrite restart_if_game_over_eq.
      destruct (game_over g); [| exact IH].
      apply shape_reset, (inv_shipped g Hi).
Qed.

(** X1. In every state the program reaches, the food lies on a cell of the
    board. *)
Theorem food_on_board (g : SnakeGame) :
  reachable g -> on_board (cols_of g) (rows_of g) (food g).
Proof.
  intros Hr.
  destruct (shipped_board g (inv_shipped g (reachable_inv g Hr)))
    as (_ & -> & ->).
  exact (shape_food g (reachable_shape g Hr)).
Qed.

Lemma food_on_board_witness :
  on_board (cols_of opening) (rows_of opening) (food opening).
Proof. apply (food_on_board opening). exact reachable_opening. Defined.

(** X2. In every state the program reaches, the snake is a path on the
    grid: each segment is the neighbour, one step in one of the four
    directions, of the segment behind it. *)
Theorem snake_linked (g : SnakeGame) : reachable g -> linked (snake g).
Proof. intros Hr. exact (shape_linked g (reachable_shape g Hr)). Qed.

Lemma snake_linked_witness : linked (snake opening).
Proof. apply (snake_linked opening). exact reachable_opening. Defined.

Lemma on_board_length (sn : list Cell) :
  NoDup sn -> Forall (on_board 50 33) sn -> (length sn <= 1650)%nat.
Proof.
  intros Hn Hb.
  change 1650%nat with (length (list_prod (range 50) (range 33))).
  apply NoDup_incl_length; [exact Hn |].
  intros [x y] Hp. rewrite Forall_forall in Hb. apply Hb in Hp.
  apply in_prod_iff. rewrite !In_range. exact Hp.
Qed.

(** X3. In every state the program reaches, the snake has between 3 and
    1650 segments, the score is between 0 and 1647, and the tick interval
    is between 100 and 200 ms: 200 less 2 per point up to a score of 50,
    and 100 ms from there on. *)
Theorem state_bounds (g : SnakeGame) :
  reachable g ->
  (3 <= length (snake g) <= 1650)%nat /\
  0 <= score g <= 1647 /\
  min_speed_ms g <= speed_ms g <= base_speed_ms g /\
  min_speed_ms g = 100 /\ base_speed_ms g = 200 /\
  (score g <= 50 -> speed_ms g = 200 - 2 * score g) /\
  (50 <= score g -> speed_ms g = 100).
Proof.
  intros Hr. pose proof (reachable_inv g Hr) as Hi.
  pose proof (shape_long g (reachable_shape g Hr)) as Hlong.
  pose proof (on_board_length _ (inv_nodup g Hi) (inv_board g Hi)) as Hmax.
  pose proof (inv_length g Hi) as Hlen.
  pose proof (inv_speed g Hi) as Hsp. unfold interval in Hsp.
  destruct (inv_shipped g Hi) as (_ & _ & _ & Hb & Hm).
  rewrite Hb, Hm in *. lia.
Qed.

Lemma state_bounds_witness :
  (3 <= length (snake opening) <= 1650)%nat /\
  0 <= score opening <= 1647 /\
  min_speed_ms opening <= speed_ms opening <= base_speed_ms opening /\
  min_speed_ms opening = 100 /\ base_speed_ms opening = 200 /\
  (score opening <= 50 -> speed_ms opening = 200 - 2 * score opening) /\
  (50 <= score opening -> speed_ms opening = 100).
Proof. apply (state_bounds opening). exact reachable_opening. Defined.

(** ** [spawn_food] *)




(** ** Exceptions *)

(** X5. The running program raises in one situation only: a tick of a
    running game whose new head is the food and fills the last free cell
    of the board; the exception is [IndexError].  No key press raises, and
    no other tick does. *)
Theorem only_exception (g : SnakeGame) (e : event) (x : exn) (g' : SnakeGame) :
  reachable g -> handle e g = (Raise x, g') ->
  x = IndexError /\ (exists r, e = Timer r) /\ game_over g = false /\
  snake g' = food g :: snake g /\
  (exists h t, snake g = h :: t /\ food g = step_cell h (next_direction g)) /\
  (forall p, on_board 50 33 p -> In p (snake g')).
Proof.
  intros Hr E. pose proof (reachable_inv g Hr) as Hi.
  destruct e as [r | d | r]; unfold handle in E.
  - destruct (game_over g) eqn:Hg.
    { rewrite tick_over in E by exact Hg. discriminate. }
    destruct (inv_neck g Hi Hg) as (n & t & Hsn).
    pose proof (tick_cases r g _ _ (inv_shipped g Hi) Hg Hsn) as Hc.
    rewrite E in Hc. inversion Hc; subst. fields.
    match goal with H : _ = food g |- _ => rewrite <- H end.
    repeat split; eauto.
  - rewrite change_direction_eq in E. discriminate.
  - rewrite restart_if_game_over_eq in E.
    destruct (game_over g); [| discriminate].
    destruct (reset_shipped r g (inv_shipped g Hi)) as (f & _ & E').
    rewrite E' in E. discriminate.
Qed.

Lemma only_exception_witness :
  IndexError = IndexError /\ (exists r, Timer 0 = Timer r) /\
  game_over last_bite = false /\
  snake full_board = food last_bite :: snake last_bite /\
  (exists h t, snake last_bite = h :: t /\
               food last_bite = step_cell h (next_direction last_bite)) /\
  (forall p, on_board 50 33 p -> In p (snake full_board)).
Proof.
  apply (only_exception last_bite (Timer 0) IndexError full_board).
  - exact reachable_last_bite.
  - exact tick_last_bite.
Defined.

(** ** Key presses *)

(** X6. [change_direction] never raises and changes no attribute but the
    pending direction.  Of two requests made before the next tick the
    second wins, unless it is the opposite of the committed direction, in
    which case the first stands: a request is judged against the committed
    direction, never against the pending one. *)
Theorem change_direction_twice (d1 d2 : Direction) (g : SnakeGame) :
  (exists nd, change_direction d1 g = (Ret tt, set_next_direction nd g)) /\
  after (KeyDirection d2) (after (KeyDirection d1) g) =
    if Direction_eqb d2 (opposites (direction g))
    then after (KeyDirection d1) g
    else after (KeyDirection d2) g.
Proof.
  unfold after, handle. rewrite !change_direction_eq. cbn [snd]. split.
  - destruct g as [w h c b m sn d nd f sc go sp]. cbn.
    destruct go; [exists nd; reflexivity |].
    destruct (Direction_eqb d1 (opposites d));
      [exists nd | exists d1]; reflexivity.
  - destruct (game_over g) eqn:Hg.
    + rewrite Hg. destruct (Direction_eqb d2 _); reflexivity.
    + destruct (Direction_eqb d1 (opposites (direction g))) eqn:E1;
        fields; rewrite Hg;
        destruct (Direction_eqb d2 (opposites (direction g))); reflexivity.
Qed.

(** ** Reset *)



(** ** Running and over *)

(** X8. The game goes from running to over only by a tick whose new head is
    off the board or on the snake, and from over to running only by the
    space key; a finished game is changed by no other event. *)
Theorem running_and_over (g : SnakeGame) (e : event) :
  reachable g ->
  (game_over g = false -> game_over (after e g) = true ->
   exists r h t,
     e = Timer r /\ snake g = h :: t /\ snake (after e g) = snake g /\
     (~ on_board 50 33 (step_cell h (next_direction g)) \/
      In (step_cell h (next_direction g)) (snake g))) /\
  (game_over g = true ->
   (forall r, e <> KeySpace r) -> handle e g = (Ret tt, g)) /\
  (game_over g = true -> game_over (after e g) = false ->
   exists r, e = KeySpace r).
Proof.
  intros Hr. pose proof (reachable_inv g Hr) as Hi.
  split; [| split].
  - intros Hg. destruct e as [r | d | r]; unfold after, handle.
    + destruct (inv_neck g Hi Hg) as (n & t & Hsn).
      pose proof (tick_cases r g _ _ (inv_shipped g Hi) Hg Hsn) as Hc.
      destruct Hc; cbn [snd]; fields; intros Hover; try congruence.
      exists r, (step_cell n (direction g)), (n :: t). subst nh. tauto.
    + rewrite change_direction_eq. cbn [snd]. rewrite Hg.
      destruct (Direction_eqb _ _); fields; congruence.
    + rewrite restart_if_game_over_eq, Hg. cbn [snd]. congruence.
  - intros Hg Hne. destruct e as [r | d | r]; unfold handle.
    + apply tick_over, Hg.
    + rewrite change_direction_eq, Hg. reflexivity.
    + destruct (Hne r). reflexivity.
  - intros Hg. destruct e as [r | d | r]; unfold after, handle.
    + rewrite tick_over by exact Hg. cbn [snd]. congruence.
    + rewrite change_direction_eq, Hg. cbn [snd]. congruence.
    + intros _. exists r. reflexivity.
Qed.

Lemma reachable_run (es : list event) (g : SnakeGame) :
  reachable g -> reachable (run es g).
Proof.
  revert g. induction es as [| e es IH]; intros g Hr; [exact Hr |].
  cbn [run]. apply IH, reach_step, Hr.
Qed.

Lemma reachable_crashed : reachable crashed.
Proof.
  replace crashed
    with (run (repeat (Timer 0) 25) (set_food (3, 4) opening))
    by (vm_compute; reflexivity).
  apply reachable_run. apply (reach_init 103). vm_compute. reflexivity.
Qed.

Lemma reachable_top_row : reachable top_row.
Proof.
  replace top_row
    with (run (KeyDirection Up :: repeat (Timer 0) 16 ++
               [KeyDirection Right; Timer 0; KeyDirection Up])
              (set_food (3, 4) opening))
    by (vm_compute; reflexivity).
  apply reachable_run. apply (reach_init 103). vm_compute. reflexivity.
Qed.

Lemma running_and_over_witness :
  (game_over opening = false ->
   game_over (after (Timer 0) opening) = true ->
   exists r h t,
     Timer 0 = Timer r /\ snake opening = h :: t /\
     snake (after (Timer 0) opening) = snake opening /\
     (~ on_board 50 33 (step_cell h (next_direction opening)) \/
      In (step_cell h (next_direction opening)) (snake opening))) /\
  (game_over crashed = true ->
   (forall r, KeyDirection Up <> KeySpace r) ->
   handle (KeyDirection Up) crashed = (Ret tt, crashed)) /\
  (exists r h t,
     Timer 0 = Timer r /\ snake top_row = h :: t /\
     snake (after (Timer 0) top_row) = snake top_row /\
     (~ on_board 50 33 (step_cell h (next_direction top_row)) \/
      In (step_cell h (next_direction top_row)) (snake top_row))) /\
  (exists r, KeySpace 3 = KeySpace r).
Proof.
  split; [| split; [| split]].
  - apply (running_and_over opening (Timer 0)). exact reachable_opening.
  - apply (running_and_over crashed (KeyDirection Up)).
    exact reachable_crashed.
  - apply (running_and_over top_row (Timer 0)).
    + exact reachable_top_row.
    + reflexivity.
    + reflexivity.
  - apply (running_and_over crashed (KeySpace 3)).
    + exact reachable_crashed.
    + reflexivity.
    + vm_compute. reflexivity.
Defined.

(** * The window *)

Ltac unfold_W :=
  unfold Tk.bind, Tk.window, Tk.update, Tk.pure, Tk.lift, Tk.canvas_create,
    Tk.canvas_delete_all, Tk.root_after, Tk.root_after_cancel,
    set_game, set_job_id, set_canvas, set_pending.

Lemma draw_cell_eq (x y : Z) (color : String.string) (w : Window) :
  Tk.draw_cell x y color w =
  (Ret tt,
   set_canvas (canvas w ++ [cell_item (cell_size (game w)) color (x, y)]) w).
Proof. reflexivity. Qed.

Lemma draw_segments_body (i : nat) (sn : list Cell) (w : Window) :
  Tk.draw_segments (S i) sn w =
  (Ret tt,
   set_canvas (canvas w ++ map (cell_item (cell_size (game w)) "#26a269") sn) w).
Proof.
  revert i w. induction sn as [| [x y] sn IH]; intros i w.
  - cbn. unfold Tk.pure, set_canvas. rewrite app_nil_r. destruct w; reflexivity.
  - cbn [Tk.draw_segments Nat.eqb map]. unfold Tk.bind at 1.
    rewrite draw_cell_eq, IH. unfold set_canvas. cbn.
    rewrite <- app_assoc. reflexivity.
Qed.

Lemma draw_segments_eq (sn : list Cell) (w : Window) :
  Tk.draw_segments 0 sn w =
  (Ret tt, set_canvas (canvas w ++ snake_items (cell_size (game w)) sn) w).
Proof.
  destruct sn as [| [x y] sn].
  - cbn. unfold Tk.pure, set_canvas. rewrite app_nil_r. destruct w; reflexivity.
  - cbn [Tk.draw_segments Nat.eqb snake_items]. unfold Tk.bind at 1.
    rewrite draw_cell_eq, draw_segments_body. unfold set_canvas. cbn.
    rewrite <- app_assoc. reflexivity.
Qed.

Lemma draw_eq (w : Window) :
  Tk.draw w = (Ret tt, set_canvas (render (game w)) w).
Proof.
  destruct w as [g j cv pd nx]. unfold Tk.draw, render.
  unfold Tk.bind at 1. unfold Tk.canvas_delete_all, Tk.update at 1.
  unfold Tk.bind at 1. unfold Tk.window at 1. cbn [game set_canvas job_id pending next_id canvas].
  destruct (food g) as [fx fy] eqn:Ef.
  unfold Tk.bind at 1. rewrite draw_cell_eq.
  unfold Tk.bind at 1. unfold Tk.window at 1.
  unfold Tk.bind at 1. rewrite draw_segments_eq.
  cbn [game set_canvas job_id pending next_id canvas app].
  unfold_W. cbn -[String.append str Z.div Z.mul Z.add app].
  destruct (game_over g); cbn -[String.append str Z.div Z.mul Z.add app];
    rewrite <- ?app_assoc; reflexivity.
Qed.

Lemma schedule_next_tick_eq (w : Window) :
  Tk.schedule_next_tick w =
  (Ret tt,
   mkWindow (game w) (Some (next_id w)) (canvas w)
            (pending w ++ [(next_id w, speed_ms (game w))]) (S (next_id w))).
Proof. reflexivity. Qed.

Lemma draw_schedule_eq (w : Window) :
  (Tk.bind Tk.draw (fun _ => Tk.schedule_next_tick)) w =
  (Ret tt, shown_and_scheduled w).
Proof.
  unfold Tk.bind. rewrite draw_eq, schedule_next_tick_eq. reflexivity.
Qed.

Ltac run_W :=
  cbn -[Z.div Z.add Z.sub Z.mul Z.max Z.ltb Z.geb Z.eqb nth Nat.modulo
        length removelast available cell_in cell_eqb direction_vectors
        Tk.draw Tk.schedule_next_tick render String.append str filter app].

Lemma tk_tick_eq (r : nat) (w : Window) : Tk.tick r w = tick_window r w.
Proof.
  destruct w as [g j cv pd nx].
  destruct g as [wd hh c b m sn d nd f sc go sp].
  unfold tick_window, Tk.tick, tick, snake_head, hits_wall, hits_self,
    spawn_food, snake_pop, shown_and_scheduled.
  unfold_W. unfold_M. run_W.
  destruct go; [reflexivity |]. run_W.
  destruct (direction_vectors nd) as [dx dy]. run_W.
  destruct sn as [| [hx hy] t]; [reflexivity |]. run_W.
  destruct (c =? 0) eqn:Hc; run_W; [reflexivity |].
  destruct (_ || _ || (_ >=? _) || (_ >=? _)); run_W.
  { rewrite draw_eq. reflexivity. }
  destruct (cell_in _ _); run_W.
  { rewrite draw_eq. reflexivity. }
  destruct (cell_eqb _ _); run_W.
  - rewrite Hc. run_W.
    destruct (available _ _ _); run_W; [reflexivity |].
    rewrite draw_eq. reflexivity.
  - rewrite draw_eq. reflexivity.
Qed.

Lemma tk_reset_game_eq (r : nat) (w : Window) :
  Tk.reset_game r w = reset_window r w.
Proof.
  destruct w as [g j cv pd nx].
  unfold Tk.reset_game, reset_window, shown_and_scheduled, cancelled.
  unfold Tk.bind at 1. unfold Tk.lift. cbn [game].
  destruct (reset_game r g) as [[[] | e] g']; [| reflexivity].
  unfold_W. run_W.
  destruct j as [id |]; run_W; rewrite draw_eq; reflexivity.
Qed.

Lemma tk_restart_eq (r : nat) (w : Window) :
  Tk.restart_if_game_over r w =
  if game_over (game w) then reset_window r w else (Ret tt, w).
Proof.
  unfold Tk.restart_if_game_over. unfold_W.
  destruct (game_over (game w)); [apply tk_reset_game_eq | reflexivity].
Qed.

Lemma tk_change_direction_eq (d : Direction) (w : Window) :
  Tk.change_direction d w =
  (Ret tt, set_game (snd (change_direction d (game w))) w).
Proof.
  unfold Tk.change_direction, Tk.lift. rewrite change_direction_eq. reflexivity.
Qed.

(** ** The window and the engine *)

Lemma window_eta (w : Window) : set_game (game w) w = w.
Proof. destruct w; reflexivity. Qed.

Lemma tick_window_game (r : nat) (w : Window) :
  fst (tick_window r w) = fst (tick r (game w)) /\
  game (snd (tick_window r w)) = snd (tick r (game w)).
Proof.
  unfold tick_window. destruct (game_over (game w)) eqn:Hg.
  - rewrite tick_over by exact Hg. cbn. split; reflexivity.
  - destruct (tick r (game w)) as [[[] | e] g']; [| split; reflexivity].
    destruct (game_over g'); split; reflexivity.
Qed.

Lemma reset_window_game (r : nat) (w : Window) :
  fst (reset_window r w) = fst (reset_game r (game w)) /\
  game (snd (reset_window r w)) = snd (reset_game r (game w)).
Proof.
  unfold reset_window.
  destruct (reset_game r (game w)) as [[[] | e] g']; split; reflexivity.
Qed.

Lemma binding_game (k : Tk.key) (r : nat) (w : Window) :
  fst (Tk.binding k r w) = fst (handle (engine_event (Tk.Press k r)) (game w)) /\
  game (snd (Tk.binding k r w)) =
    snd (handle (engine_event (Tk.Press k r)) (game w)).
Proof.
  destruct k; cbn [Tk.binding engine_event handle];
    try (rewrite tk_change_direction_eq, change_direction_eq;
         split; reflexivity).
  rewrite tk_restart_eq, restart_if_game_over_eq.
  destruct (game_over (game w)); [apply reset_window_game | split; reflexivity].
Qed.

Lemma deliver_game (e : Tk.event) (w w' : Window) :
  Tk.deliver e w = Some w' -> game w' = after (engine_event e) (game w).
Proof.
  destruct e as [k r | id r]; cbn [Tk.deliver].
  - intros E. injection E as <-. apply binding_game.
  - destruct (Tk.is_pending id w); [| discriminate].
    intros E. injection E as <-. rewrite tk_tick_eq.
    apply (tick_window_game r (set_pending _ w)).
Qed.

Lemma init_window (r : nat) :
  exists g f,
    init r = Ret g /\ In f (available 50 33 (start_snake 50 33)) /\
    g = mkGame 1500 1000 30 200 100 (start_snake 50 33) Right Right f 0
               false 200 /\
    Tk.init r = Ret (mkWindow g (Some 0%nat) (render g) [(0%nat, 200)] 1).
Proof.
  destruct (reset_shipped r fresh) as (f & Hf & E);
    [repeat split |].
  eexists. exists f. unfold init, Tk.init.
  rewrite tk_reset_game_eq. unfold reset_window. cbn [game]. rewrite E.
  repeat split. exact Hf.
Qed.

Lemma mainloop_reachable (w : Window) : Tk.mainloop w -> reachable (game w).
Proof.
  induction 1 as [r w H | e w w' _ IH H].
  - destruct (init_window r) as (g & f & Hi & _ & _ & Hw).
    rewrite Hw in H. injection H as <-. apply (reach_init r). exact Hi.
  - rewrite (deliver_game e w w' H). apply reach_step, IH.
Qed.

Lemma mainloop_opening_window : Tk.mainloop opening_window.
Proof. apply (Tk.loop_start 0). vm_compute. reflexivity. Defined.

(** X9. Drawing and scheduling touch no attribute of the game.  [tick],
    [reset_game] and every key binding, run on the window, return or raise
    as the engine's method does on the game, and leave the game that
    method leaves; so the game of every window of the program is a state
    the engine reaches. *)
Theorem window_refines_engine (w : Window) :
  (forall r,
     fst (Tk.tick r w) = fst (tick r (game w)) /\
     game (snd (Tk.tick r w)) = snd (tick r (game w))) /\
  (forall r,
     fst (Tk.reset_game r w) = fst (reset_game r (game w)) /\
     game (snd (Tk.reset_game r w)) = snd (reset_game r (game w))) /\
  (forall k r,
     fst (Tk.binding k r w) =
       fst (handle (engine_event (Tk.Press k r)) (game w)) /\
     game (snd (Tk.binding k r w)) =
       snd (handle (engine_event (Tk.Press k r)) (game w))) /\
  (forall e w',
     Tk.deliver e w = Some w' -> game w' = after (engine_event e) (game w)) /\
  (Tk.mainloop w -> reachable (game w)).
Proof.
  split; [| split; [| split; [| split]]].
  - intros r. rewrite tk_tick_eq. apply tick_window_game.
  - intros r. rewrite tk_reset_game_eq. apply reset_window_game.
  - intros k r. apply binding_game.
  - intros e w'. apply deliver_game.
  - apply mainloop_reachable.
Qed.

Lemma window_refines_engine_witness :
  game (snd (Tk.tick 0 opening_window)) = snd (tick 0 opening) /\
  reachable (game opening_window).
Proof.
  destruct (window_refines_engine opening_window) as (Ht & _ & _ & _ & Hm).
  split; [apply Ht | apply Hm, mainloop_opening_window].
Defined.

(** ** One timer, one frame *)

Lemma phase_change_direction (d : Direction) (w : Window) :
  phase w -> phase (set_game (snd (change_direction d (game w))) w).
Proof.
  intros Hp. rewrite change_direction_eq. cbn [snd].
  destruct (game_over (game w)) eqn:Hg; [rewrite window_eta; exact Hp |].
  destruct (Direction_eqb _ _); [rewrite window_eta; exact Hp |].
  destruct Hp as [id H1 H2 H3 H4 H5 | H1 | H1 H2 H3].
  - apply (phase_running _ id); assumption.
  - congruence.
  - apply phase_frozen; assumption.
Qed.

Lemma phase_reset (r : nat) (w : Window) :
  shipped (game w) -> pending w = [] -> phase (snd (reset_window r w)).
Proof.
  intros Hs Hp. unfold reset_window.
  destruct (reset_shipped r (game w) Hs) as (f & Hf & E). rewrite E.
  apply In_available in Hf. destruct Hf as [_ Hf].
  assert (Hc : cancelled w = []).
  { unfold cancelled. rewrite Hp. destruct (job_id w); reflexivity. }
  cbn [snd]. unfold shown_and_scheduled. cbn [game pending next_id].
  rewrite Hc. apply (phase_running _ (next_id w)); try reflexivity.
  exact Hf.
Qed.

Ltac wfields :=
  unfold shown_and_scheduled;
  cbn [snd fst game job_id canvas pending next_id set_game set_canvas
       set_pending set_job_id app];
  fields.

Lemma phase_tick (r : nat) (w : Window) :
  inv (game w) -> game_over (game w) = false -> pending w = [] ->
  ~ In (food (game w)) (snake (game w)) ->
  phase (snd (tick_window r w)).
Proof.
  intros Hi Hg Hp Hf. unfold tick_window. rewrite Hg.
  destruct (inv_neck _ Hi Hg) as (n & t & Hsn).
  pose proof (tick_cases r _ _ _ (inv_shipped _ Hi) Hg Hsn) as Hc.
  destruct Hc; fields; try rewrite Hg.
  - apply phase_over; wfields; try reflexivity; assumption.
  - apply (phase_running _ (next_id w)); wfields; rewrite ?Hp;
      try reflexivity; try assumption.
    intros [E | Hin]; [congruence |].
    apply Hf, In_removelast, Hin.
  - apply (phase_running _ (next_id w)); wfields; rewrite ?Hp;
      try reflexivity; assumption.
  - apply phase_frozen; wfields; assumption.
Qed.

Lemma mainloop_phase (w : Window) : Tk.mainloop w -> phase w.
Proof.
  intros Hm. pose proof (mainloop_reachable w Hm) as Hr. revert Hr.
  induction Hm as [r w H | e w w' Hm IH H]; intros Hr'.
  - destruct (init_window r) as (g & f & _ & Hf & Hg & Hw).
    rewrite Hw in H. injection H as <-. subst g.
    apply In_available in Hf. destruct Hf as [_ Hf].
    apply (phase_running _ 0%nat); try reflexivity. exact Hf.
  - pose proof (mainloop_reachable w Hm) as Hr.
    specialize (IH Hr). pose proof (reachable_inv _ Hr) as Hi.
    destruct e as [k r | id r]; cbn [Tk.deliver] in H.
    + injection H as <-.
      destruct k; cbn [Tk.binding];
        try (rewrite tk_change_direction_eq; cbn [snd];
             apply phase_change_direction, IH).
      rewrite tk_restart_eq.
      destruct (game_over (game w)) eqn:Hg; [| exact IH].
      apply phase_reset; [exact (inv_shipped _ Hi) |].
      destruct IH as [id H1 | H1 H2 | H1]; congruence.
    + destruct (Tk.is_pending id w) eqn:Ep; [| discriminate].
      injection H as <-. rewrite tk_tick_eq.
      unfold Tk.is_pending in Ep.
      destruct IH as [id' H1 H2 H3 H4 H5 | H1 H2 | H1 H2];
        try (rewrite H2 in Ep; discriminate).
      rewrite H2 in Ep. cbn in Ep. rewrite orb_false_r in Ep.
      rewrite H2. cbn [filter fst]. rewrite Ep. cbn [negb].
      apply phase_tick; cbn [game pending set_pending]; try reflexivity;
        assumption.
Qed.

(** ** Filling the board, in the window *)

Lemma crawl_bite_tick (h : Cell) (t : list Cell) (d d' : Direction) (f f' : Cell) :
  step_cell h d' = f ->
  off_board 50 33 f = false -> cell_in f (h :: t) = false ->
  off_board 50 33 f' = false -> cell_in f' (f :: h :: t) = false ->
  exists r,
    tick r (set_next_direction d' (crawl_state (h :: t) d f)) =
    (Ret tt, crawl_state (f :: h :: t) d' f').
Proof.
  intros Hstep Hon Hoff Hon' Hoff'.
  set (g1 := set_next_direction d' (crawl_state (h :: t) d f)).
  assert (Hin : In f' (available 50 33 (f :: h :: t))).
  { apply In_available. split.
    - apply off_board_false, Hon'.
    - apply cell_in_not_In, Hoff'. }
  destruct (choice_any _ _ g1 Hin) as [r Hch]. exists r.
  assert (E := tick_eq r g1 h t). cbv zeta in E.
  change (cols_of g1) with 50 in E. change (rows_of g1) with 33 in E.
  change (next_direction g1) with d' in E.
  change (snake g1) with (h :: t) in E. change (food g1) with f in E.
  rewrite Hstep, Hon, Hoff, cell_eqb_refl in E. cbn [orb] in E.
  destruct (available 50 33 (f :: h :: t)) as [| x l]; [destruct Hin |].
  unfold choice, ret in Hch.
  assert (Hnth : nth (r mod length (x :: l))%nat (x :: l) x = f')
    by congruence.
  rewrite Hnth in E. rewrite E by (cbn; congruence).
  unfold g1, crawl_state. fields. cbn [length].
  replace (Z.of_nat (S (length t)) - 3 + 1)
    with (Z.of_nat (S (S (length t))) - 3) by lia.
  reflexivity.
Qed.

Lemma press_arrow (k : nat) (sn : list Cell) (d d' : Direction) (f : Cell) :
  Direction_eqb d' (opposites d) = false ->
  Tk.deliver (Tk.Press (arrow d') 0) (running_window k (crawl_state sn d f)) =
  Some (running_window k (set_next_direction d' (crawl_state sn d f))).
Proof.
  intros Hd. cbn [Tk.deliver]. f_equal.
  assert (E : Tk.binding (arrow d') 0 (running_window k (crawl_state sn d f)) =
              Tk.change_direction d' (running_window k (crawl_state sn d f)))
    by (destruct d'; reflexivity).
  rewrite E, tk_change_direction_eq, change_direction_eq.
  cbn [snd game_over direction crawl_state game running_window].
  rewrite Hd. reflexivity.
Qed.

Lemma crawl_window_bite
    (k : nat) (h : Cell) (t : list Cell) (d d' : Direction) (f f' : Cell) :
  Direction_eqb d' (opposites d) = false ->
  step_cell h d' = f ->
  off_board 50 33 f = false -> cell_in f (h :: t) = false ->
  off_board 50 33 f' = false -> cell_in f' (f :: h :: t) = false ->
  Tk.mainloop (running_window k (crawl_state (h :: t) d f)) ->
  Tk.mainloop (running_window (S k) (crawl_state (f :: h :: t) d' f')).
Proof.
  intros Hd Hstep Hon Hoff Hon' Hoff' Hm.
  destruct (crawl_bite_tick h t d d' f f' Hstep Hon Hoff Hon' Hoff') as [r E].
  apply (Tk.loop_step (Tk.Expire k r)
           (running_window k (set_next_direction d' (crawl_state (h :: t) d f)))).
  - apply (Tk.loop_step (Tk.Press (arrow d') 0) _ _ Hm).
    apply press_arrow, Hd.
  - cbn [Tk.deliver]. unfold Tk.is_pending.
    cbn [existsb pending running_window fst]. rewrite Nat.eqb_refl.
    cbn [orb filter negb fst]. rewrite Nat.eqb_refl. cbn [negb].
    rewrite tk_tick_eq. unfold tick_window.
    cbn [game set_pending running_window]. rewrite E. reflexivity.
Qed.

Lemma crawl_window_reachable (rest : list Cell) :
  forall k sn d f,
    crawlb sn d f rest = true ->
    Tk.mainloop (running_window k (crawl_state sn d f)) ->
    Tk.mainloop (running_window (length rest + k) (crawl sn d f rest)).
Proof.
  induction rest as [| f' rest IH]; intros k sn d f Hb Hm;
    destruct sn as [| h t]; try discriminate Hb;
    cbn [crawlb] in Hb; cbn [crawl hd length];
    apply andb_true_iff in Hb; destruct Hb as [Hd Hb];
    apply negb_true_iff in Hd.
  - apply (Tk.loop_step (Tk.Press (arrow (heading h f)) 0) _ _ Hm).
    apply press_arrow, Hd.
  - do 5 (apply andb_true_iff in Hb; destruct Hb as [Hb ?]).
    repeat match goal with
           | H : negb _ = true |- _ => apply negb_true_iff in H
           end.
    apply cell_eqb_eq in Hb.
    replace (S (length rest) + k)%nat with (length rest + S k)%nat by lia.
    apply IH; [assumption |].
    apply (crawl_window_bite k h t d); assumption.
Qed.

Lemma mainloop_last_bite_window : Tk.mainloop last_bite_window.
Proof.
  unfold last_bite_window. rewrite <- crawl_last_bite.
  change 1646%nat with (length (skipn 4 tour) + 0)%nat.
  apply crawl_window_reachable.
  - vm_compute. reflexivity.
  - apply (Tk.loop_start 871). vm_compute. reflexivity.
Qed.

Lemma deliver_last_bite :
  Tk.deliver (Tk.Expire 1646 0) last_bite_window = Some full_board_window.
Proof.
  cbn [Tk.deliver]. unfold Tk.is_pending.
  cbn [existsb pending last_bite_window running_window fst Nat.eqb orb filter negb].
  rewrite tk_tick_eq. unfold tick_window.
  cbn [game set_pending last_bite_window running_window].
  rewrite tick_last_bite. reflexivity.
Qed.

Lemma mainloop_full_board_window : Tk.mainloop full_board_window.
Proof.
  apply (Tk.loop_step _ _ _ mainloop_last_bite_window deliver_last_bite).
Qed.

(** ** Extras on the window *)

(** X10. Construction with the shipped settings succeeds for every draw:
    the snake lies on (25,16), (24,16), (23,16) heading right, the score is
    0, the food is on a free cell of the board, the first frame is drawn
    and the first tick is pending, 200 ms ahead. *)
Theorem init_succeeds (r : nat) :
  exists f,
    on_board 50 33 f /\ ~ In f [(25, 16); (24, 16); (23, 16)] /\
    init r = Ret (mkGame 1500 1000 30 200 100 [(25, 16); (24, 16); (23, 16)]
                         Right Right f 0 false 200) /\
    Tk.init r =
      Ret (running_window 0
             (mkGame 1500 1000 30 200 100 [(25, 16); (24, 16); (23, 16)]
                     Right Right f 0 false 200)).
Proof.
  destruct (init_window r) as (g & f & Hi & Hf & Hg & Hw). subst g.
  exists f. apply In_available in Hf. destruct Hf as [Hon Hoff].
  repeat split; try assumption; apply Hon.
Qed.

(** X11. In every window of the program at most one tick is pending.  A
    pending tick is the job [job_id] names, its delay is the current
    [speed_ms], and the game is running; a running game with a free cell
    left on the board has its tick pending. *)
Theorem single_timer (w : Window) :
  Tk.mainloop w ->
  (length (pending w) <= 1)%nat /\
  (forall id ms,
     In (id, ms) (pending w) ->
     job_id w = Some id /\ ms = speed_ms (game w) /\
     game_over (game w) = false) /\
  (game_over (game w) = false ->
   (exists p, on_board 50 33 p /\ ~ In p (snake (game w))) ->
   exists id, pending w = [(id, speed_ms (game w))]).
Proof.
  intros Hm. destruct (mainloop_phase w Hm) as [id H1 H2 H3 _ _ | H1 H2 _ _ | H1 H2 H3];
    rewrite H2; cbn [length In]; repeat split; try lia; try tauto.
  - destruct H as [E | []]. injection E as <- <-. exact H3.
  - destruct H as [E | []]. injection E as <- <-. reflexivity.
  - intros _ _. exists id. reflexivity.
  - congruence.
  - intros _ (p & Hp & Hn). destruct Hn. apply H3, Hp.
Qed.

Lemma single_timer_witness :
  (length (pending opening_window) <= 1)%nat /\
  (forall id ms,
     In (id, ms) (pending opening_window) ->
     job_id opening_window = Some id /\
     ms = speed_ms (game opening_window) /\
     game_over (game opening_window) = false) /\
  (game_over (game opening_window) = false ->
   (exists p, on_board 50 33 p /\ ~ In p (snake (game opening_window))) ->
   exists id, pending opening_window = [(id, speed_ms (game opening_window))]).
Proof. apply (single_timer opening_window). exact mainloop_opening_window. Defined.

(** X12. Whenever a tick is pending or the game is over, the canvas holds
    the frame of the current game, and in it the food is on no cell of
    the snake. *)
Theorem screen_is_current (w : Window) :
  Tk.mainloop w ->
  pending w <> [] \/ game_over (game w) = true ->
  canvas w = render (game w) /\ ~ In (food (game w)) (snake (game w)).
Proof.
  intros Hm H. destruct (mainloop_phase w Hm) as [id' H1 H2 H3 H4 H5 | H1 H2 H3 H4 | H1 H2 _].
  - split; assumption.
  - split; assumption.
  - destruct H; congruence.
Qed.

Lemma screen_is_current_witness :
  canvas opening_window = render (game opening_window) /\
  ~ In (food (game opening_window)) (snake (game opening_window)).
Proof.
  apply (screen_is_current opening_window).
  - exact mainloop_opening_window.
  - left. discriminate.
Defined.

Lemma length_snake_items (cs : Z) (sn : list Cell) :
  length (snake_items cs sn) = length sn.
Proof. destruct sn; cbn; [| rewrite length_map]; reflexivity. Qed.

(** X13. [draw] never raises and changes nothing but the canvas, which it
    replaces: what it leaves depends on the game alone, so drawing twice is
    drawing once, and the canvas holds the food, one rectangle per segment
    and the score, plus the three items of the overlay once the game is
    over. *)
Theorem draw_replaces_canvas (w : Window) :
  Tk.draw w = (Ret tt, set_canvas (render (game w)) w) /\
  Tk.draw (snd (Tk.draw w)) = Tk.draw w /\
  length (render (game w)) =
    (2 + length (snake (game w)) + if game_over (game w) then 3 else 0)%nat.
Proof.
  split; [apply draw_eq |]. split.
  - rewrite !draw_eq. destruct w; reflexivity.
  - unfold render. cbn [length]. rewrite length_app, length_snake_items.
    cbn [length]. destruct (game_over (game w)); cbn [length]; lia.
Qed.

Lemma on_canvas_cell (g : SnakeGame) (color : String.string) (p : Cell) :
  shipped g -> on_board 50 33 p ->
  on_canvas g (cell_item (cell_size g) color p).
Proof.
  intros (Hw & Hh & Hc & _ & _) (Hx & Hy). unfold cell_item, on_canvas.
  rewrite Hw, Hh, Hc. lia.
Qed.

(** X14. In every state the program reaches, everything [draw] would put
    on the canvas lies on it: each rectangle within the 1500 x 1000
    pixels, each text anchored there. *)
Theorem frame_on_canvas (g : SnakeGame) :
  reachable g -> Forall (on_canvas g) (render g).
Proof.
  intros Hr. pose proof (reachable_inv g Hr) as Hi.
  pose proof (inv_shipped g Hi) as Hs.
  pose proof (inv_board g Hi) as Hb. rewrite Forall_forall in Hb.
  unfold render. constructor.
  - apply on_canvas_cell; [exact Hs |].
    exact (shape_food g (reachable_shape g Hr)).
  - apply Forall_app. split.
    + apply Forall_forall. intros i Hin.
      destruct (snake g) as [| h t]; [destruct Hin |].
      cbn [snake_items] in Hin. destruct Hin as [<- | Hin].
      * apply on_canvas_cell; [exact Hs | apply Hb; left; reflexivity].
      * apply in_map_iff in Hin. destruct Hin as (p & <- & Hp).
        apply on_canvas_cell; [exact Hs | apply Hb; right; exact Hp].
    + destruct Hs as (Hw & Hh & _).
      destruct (game_over g); repeat constructor; cbn [on_canvas];
        rewrite ?Hw, ?Hh; try lia;
        change (1500 / 2) with 750; lia.
Qed.

Lemma frame_on_canvas_witness : Forall (on_canvas opening) (render opening).
Proof. apply (frame_on_canvas opening). exact reachable_opening. Defined.

Lemma length_render (g : SnakeGame) :
  length (render g) =
    (2 + length (snake g) + if game_over g then 3 else 0)%nat.
Proof.
  unfold render. cbn [length]. rewrite length_app, length_snake_items.
  cbn [length]. destruct (game_over g); cbn [length]; lia.
Qed.

Lemma frozen_step (w : Window) (e : Tk.event) (w' : Window) :
  pending w = [] -> game_over (game w) = false ->
  Tk.deliver e w = Some w' ->
  played (game w') = played (game w) /\ canvas w' = canvas w /\
  pending w' = [] /\ job_id w' = job_id w /\ next_id w' = next_id w.
Proof.
  intros Hp Hg H. destruct e as [k r | id r]; cbn [Tk.deliver] in H.
  - injection H as <-.
    assert (Hcd : forall d,
      let w1 := snd (Tk.change_direction d w) in
      played (game w1) = played (game w) /\ canvas w1 = canvas w /\
      pending w1 = [] /\ job_id w1 = job_id w /\ next_id w1 = next_id w).
    { intros d. rewrite tk_change_direction_eq, change_direction_eq, Hg.
      cbn [snd]. destruct (Direction_eqb _ _); cbn; repeat split; assumption. }
    destruct k; cbn [Tk.binding]; try apply Hcd.
    rewrite tk_restart_eq, Hg. cbn [snd]. repeat split; assumption.
  - unfold Tk.is_pending in H. rewrite Hp in H. discriminate.
Qed.

(** X15. A window with a running game and no pending tick stays as it is:
    whatever keys are pressed, the snake, the food, the score, the
    interval, the flag, the canvas and the empty queue remain, no job can
    expire, and the space key does not restart. *)
Theorem frozen_forever (w : Window) (es : list Tk.event) (w' : Window) :
  pending w = [] -> game_over (game w) = false ->
  Tk.deliver_all es w = Some w' ->
  played (game w') = played (game w) /\ canvas w' = canvas w /\
  pending w' = [] /\ job_id w' = job_id w /\ next_id w' = next_id w.
Proof.
  revert w. induction es as [| e es IH]; intros w Hp Hg H; cbn [Tk.deliver_all] in H.
  - injection H as <-. repeat split; assumption.
  - destruct (Tk.deliver e w) as [w1 |] eqn:E; [| discriminate].
    destruct (frozen_step w e w1 Hp Hg E) as (H1 & H2 & H3 & H4 & H5).
    assert (Hg1 : game_over (game w1) = false).
    { unfold played in H1. injection H1 as _ _ _ _ Ho _. congruence. }
    destruct (IH w1 H3 Hg1 H) as (K1 & K2 & K3 & K4 & K5).
    repeat split; congruence.
Qed.

Lemma frozen_forever_witness :
  played (game (set_game (set_next_direction Left full_board) full_board_window)) =
    played (game full_board_window) /\
  canvas (set_game (set_next_direction Left full_board) full_board_window) =
    canvas full_board_window /\
  pending (set_game (set_next_direction Left full_board) full_board_window) = [] /\
  job_id (set_game (set_next_direction Left full_board) full_board_window) =
    job_id full_board_window /\
  next_id (set_game (set_next_direction Left full_board) full_board_window) =
    next_id full_board_window.
Proof.
  apply (frozen_forever full_board_window
           [Tk.Press Tk.Key_space 5; Tk.Press Tk.Key_Left 0;
            Tk.Press Tk.Key_Up 0]).
  - reflexivity.
  - reflexivity.
  - vm_compute. reflexivity.
Defined.

(** X16. When the tick of an expiring job raises, the window is left with
    the game running, one point more on the score, no tick pending, and on
    the canvas the frame from before the tick, one segment short of the
    snake. *)
Theorem raise_freezes
    (w : Window) (id r : nat) (w' : Window) (x : exn) :
  Tk.mainloop w ->
  Tk.deliver (Tk.Expire id r) w = Some w' ->
  fst (tick r (game w)) = Raise x ->
  pending w' = [] /\ game_over (game w') = false /\
  score (game w') = score (game w) + 1 /\
  canvas w' = render (game w) /\
  (length (canvas w') < length (render (game w')))%nat.
Proof.
  intros Hm H Hx. pose proof (mainloop_reachable w Hm) as Hr.
  pose proof (reachable_inv _ Hr) as Hi.
  cbn [Tk.deliver] in H. destruct (Tk.is_pending id w) eqn:Ep; [| discriminate].
  injection H as <-. unfold Tk.is_pending in Ep.
  destruct (mainloop_phase w Hm) as [id' H1 H2 H3 H4 H5 | H1 H2 | H1 H2];
    try (rewrite H2 in Ep; discriminate).
  rewrite H2 in Ep. cbn in Ep. rewrite orb_false_r in Ep.
  rewrite H2. cbn [filter fst]. rewrite Ep. cbn [negb].
  rewrite tk_tick_eq. unfold tick_window. cbn [game set_pending].
  destruct (inv_neck _ Hi H1) as (n & t & Hsn).
  pose proof (tick_cases r _ _ _ (inv_shipped _ Hi) H1 Hsn) as Hc.
  revert Hx. destruct Hc; cbn [fst]; intros Hx; try discriminate.
  wfields. rewrite H4, !length_render. fields. rewrite H1. cbn [length].
  repeat split; try assumption. lia.
Qed.

Lemma raise_freezes_witness :
  pending full_board_window = [] /\
  game_over (game full_board_window) = false /\
  score (game full_board_window) = score (game last_bite_window) + 1 /\
  canvas full_board_window = render (game last_bite_window) /\
  (length (canvas full_board_window) <
   length (render (game full_board_window)))%nat.
Proof.
  apply (raise_freezes last_bite_window 1646 0 full_board_window IndexError).
  - exact mainloop_last_bite_window.
  - exact deliver_last_bite.
  - change (game last_bite_window) with last_bite.
    rewrite tick_last_bite. reflexivity.
Defined.

(** ** The edge of the board *)

Lemma edge_off_board (h : Cell) (d : Direction) :
  on_board 50 33 h -> (~ on_board 50 33 (step_cell h d) <-> at_edge h d).
Proof.
  destruct h as [x y]. unfold on_board, step_cell, at_edge.
  destruct d; cbn [direction_vectors fst snd]; lia.
Qed.

(** X17. In a running game the head is on the board, and the tick hits the
    wall exactly when the head is on the edge the pending direction leads
    to: row 0 going up, row 32 going down, column 0 going left, column 49
    going right.  That tick commits the pending direction, sets
    [game_over] and changes nothing else. *)
Theorem wall_hit_at_edge (r : nat) (g : SnakeGame) :
  reachable g -> game_over g = false ->
  exists h t,
    snake g = h :: t /\ on_board 50 33 h /\
    (~ on_board (cols_of g) (rows_of g) (step_cell h (next_direction g)) <->
     at_edge h (next_direction g)) /\
    (at_edge h (next_direction g) ->
     tick r g =
       (Ret tt, set_game_over true (set_direction (next_direction g) g))).
Proof.
  intros Hr Hg. pose proof (reachable_inv g Hr) as Hi.
  destruct (inv_neck g Hi Hg) as (n & t & Hsn).
  destruct (shipped_board g (inv_shipped g Hi)) as (Hc & Hcols & Hrows).
  pose proof (inv_board g Hi) as Hb. rewrite Hsn in Hb.
  apply Forall_inv in Hb.
  exists (step_cell n (direction g)), (n :: t).
  rewrite Hcols, Hrows.
  split; [exact Hsn |]. split; [exact Hb |]. split.
  - apply (edge_off_board _ _ Hb).
  - intros He. apply (tick_collision r g _ _ Hc Hg Hsn). left.
    rewrite Hcols, Hrows. apply (edge_off_board _ _ Hb). exact He.
Qed.

Lemma wall_hit_at_edge_witness :
  snake top_row = [(26, 0); (25, 0); (25, 1)] /\
  on_board 50 33 (26, 0) /\
  (~ on_board (cols_of top_row) (rows_of top_row)
       (step_cell (26, 0) (next_direction top_row)) <->
   at_edge (26, 0) (next_direction top_row)) /\
  at_edge (26, 0) (next_direction top_row) /\
  direction top_row = Right /\
  tick 0 top_row = (Ret tt, set_game_over true (set_direction Up top_row)).
Proof.
  destruct (wall_hit_at_edge 0 top_row) as (h & t & Hs & Hb & Hiff & Ht).
  - exact reachable_top_row.
  - reflexivity.
  - injection Hs as <- <-.
    split; [reflexivity |]. split; [exact Hb |]. split; [exact Hiff |].
    split; [reflexivity |]. split; [reflexivity |].
    apply Ht. reflexivity.
Defined.

(** ** Reset, in the window *)



Lemma mainloop_deliver_all (es : list Tk.event) (w w' : Window) :
  Tk.mainloop w -> Tk.deliver_all es w = Some w' -> Tk.mainloop w'.
Proof.
  revert w. induction es as [| e es IH]; intros w Hm H; cbn [Tk.deliver_all] in H.
  - injection H as <-. exact Hm.
  - destruct (Tk.deliver e w) as [w1 |] eqn:E; [| discriminate].
    apply (IH w1); [| exact H]. apply (Tk.loop_step e w w1 Hm E).
Qed.

Lemma mainloop_crashed_window : Tk.mainloop crashed_window.
Proof.
  apply (mainloop_deliver_all
           (map (fun k => Tk.Expire k 0) (seq 0 25))
           (running_window 0 (set_food (3, 4) opening))).
  - apply (Tk.loop_start 103). vm_compute. reflexivity.
  - vm_compute. reflexivity.
Qed.
